(** * The adaptive step size controller of diffrax

    A shallow embedding of [diffrax/step_size_controller/adaptive.py]
    (the I-controller: RMS error norm, initial step selection, error scaling,
    accept/reject with step size update, and the two grid clippers), together
    with the properties its specification states about it.

    The Python code is polymorphic in the dtype of its arrays, so the
    embedding is written once over a class of scalar types and run at two
    instances: IEEE binary64 (the kernel's primitive floats), on which the
    definitions compute, and the real numbers, which give the meaning of the
    code in exact arithmetic. *)

From Stdlib Require Import ZArith List Bool String Sorted.
From Stdlib Require Import Floats Uint63.
From Stdlib Require Import Reals Lra Lia.
Import ListNotations.

Set Implicit Arguments.

(** ** Exceptions and fallible computations *)

Inductive exn : Type :=
| ValueError (msg : string)
| NotImplementedError (msg : string)
| TypeError (msg : string)
| IndexError (msg : string)
| ZeroDivisionError (msg : string).

Inductive res (A : Type) : Type :=
| OK (a : A)
| Raise (e : exn).

Arguments OK {A} a.
Arguments Raise {A} e.

Definition bind {A B : Type} (c : res A) (k : A -> res B) : res B :=
  match c with
  | OK a => k a
  | Raise e => Raise e
  end.

Notation "x <- c ;; k" := (bind c (fun x => k))
  (at level 61, c at next level, right associativity).
Notation "' p <- c ;; k" := (bind c (fun x => let 'p := x in k))
  (at level 61, p pattern, c at next level, right associativity).

Definition raises {A : Type} (c : res A) : bool :=
  match c with
  | OK _ => false
  | Raise _ => true
  end.

(** ** Scalars

    One dtype: the operations the controller applies to times, step sizes,
    tolerances and state entries.  [lit m e] is the decimal literal
    [m * 10^e]; [inexact] says whether the dtype is a sub-dtype of
    [jnp.inexact] (floating point). *)

Class Scalar (T : Type) : Type := {
  lit : Z -> Z -> T;
  t_add : T -> T -> T;
  t_sub : T -> T -> T;
  t_mul : T -> T -> T;
  t_div : T -> T -> T;
  t_lt : T -> T -> bool;
  t_le : T -> T -> bool;
  t_eq : T -> T -> bool;
  jnp_abs : T -> T;
  jnp_sqrt : T -> T;
  jnp_minimum : T -> T -> T;
  jnp_maximum : T -> T -> T;
  inexact : bool
}.

(** Modelled from the spec: [nextafter] and [nextbefore] are imported from
    [..misc], which is not among the sources at hand.  [nextafter x] is the
    smallest representable value strictly greater than [x], [nextbefore x]
    the largest representable value strictly less than [x]. *)
Class Adjacent (T : Type) : Type := {
  nextafter : T -> T;
  nextbefore : T -> T
}.

(** The power operator [**] with a scalar exponent.  It is kept apart from
    [Scalar]: the primitive floats have every operation above, but no
    power function. *)
Class Power (T : Type) : Type := t_pow : T -> T -> T.

Declare Scope scalar_scope.
Delimit Scope scalar_scope with sc.
Infix "+" := t_add : scalar_scope.
Infix "-" := t_sub : scalar_scope.
Infix "*" := t_mul : scalar_scope.
Infix "/" := t_div : scalar_scope.
Infix "**" := t_pow (at level 30, right associativity) : scalar_scope.
Infix "<?" := t_lt : scalar_scope.
Infix "<=?" := t_le : scalar_scope.
Infix "=?" := t_eq : scalar_scope.

Definition of_Z {T} `{Scalar T} (z : Z) : T := lit z 0.
Definition zero {T} `{Scalar T} : T := lit 0 0.
Definition one {T} `{Scalar T} : T := lit 1 0.

(** [jnp.where] on scalars. *)
Definition jnp_where {A : Type} (c : bool) (x y : A) : A := if c then x else y.

(** [jnp.clip(a, a_min, a_max)]: first raised to [a_min], then lowered to
    [a_max]. *)
Definition jnp_clip {T} `{Scalar T} (a a_min a_max : T) : T :=
  jnp_minimum a_max (jnp_maximum a_min a).

(** What the clippers and the floor on the step size need of the
    comparisons: no value is strictly below itself, a value strictly below
    another is also below or equal to it, and their maximum is the other
    one.  IEEE comparisons satisfy this, NaN included, as no comparison with
    NaN holds. *)
Class OrderedScalar (T : Type) `{Scalar T} : Prop := {
  lt_irrefl : forall x : T, (x <? x)%sc = false;
  lt_le : forall x y : T, (x <? y)%sc = true -> (x <=? y)%sc = true;
  lt_maximum : forall x y : T, (x <? y)%sc = true -> jnp_maximum x y = y
}.

Arguments OrderedScalar T {_}.

(** ** The binary64 instance *)

Module F64.

Definition of_Z (z : Z) : float :=
  match z with
  | Z0 => PrimFloat.zero
  | Zpos _ => PrimFloat.of_uint63 (Uint63.of_Z z)
  | Zneg p => PrimFloat.opp (PrimFloat.of_uint63 (Uint63.of_Z (Zpos p)))
  end.

(** A decimal literal with a negative exponent is the correctly rounded
    quotient of two integers, which is what reading the literal gives as
    long as both integers are exactly representable. *)
Definition lit (m e : Z) : float :=
  match e with
  | Zneg p => PrimFloat.div (of_Z m) (of_Z (Z.pow_pos 10 p))
  | _ => of_Z (m * 10 ^ e)
  end.

Definition is_nan (x : float) : bool := negb (PrimFloat.eqb x x).

(** [jnp.minimum] and [jnp.maximum] propagate NaN. *)
Definition minimum (x y : float) : float :=
  if is_nan x then x else if is_nan y then y
  else if PrimFloat.ltb y x then y else x.

Definition maximum (x y : float) : float :=
  if is_nan x then x else if is_nan y then y
  else if PrimFloat.ltb x y then y else x.

Definition is_finite (x : float) : bool :=
  PrimFloat.ltb (PrimFloat.abs x) PrimFloat.infinity.

End F64.

#[export] Instance float_scalar : Scalar float := {
  lit := F64.lit;
  t_add := PrimFloat.add;
  t_sub := PrimFloat.sub;
  t_mul := PrimFloat.mul;
  t_div := PrimFloat.div;
  t_lt := PrimFloat.ltb;
  t_le := PrimFloat.leb;
  t_eq := PrimFloat.eqb;
  jnp_abs := PrimFloat.abs;
  jnp_sqrt := PrimFloat.sqrt;
  jnp_minimum := F64.minimum;
  jnp_maximum := F64.maximum;
  inexact := true
}.

#[export] Instance float_adjacent : Adjacent float := {
  nextafter := PrimFloat.next_up;
  nextbefore := PrimFloat.next_down
}.

(** The primitive floats have no power function, and the statements about
    binary64 hold for every one.  With a solver of order 1 the exponent of
    line 280 is [1 / 1], and a power with the exponent 1 is its base: for
    such a solver, and for no other, this is the power function. *)
Definition pow_order_one : Power float := fun x _ => x.

(** ** The exact instance

    Arithmetic on the reals, with no rounding and no overflow.  The
    representable values are the multiples of [grid], so that [nextafter]
    and [nextbefore] keep their meaning. *)

Module Exact.

Definition lit (m e : Z) : R :=
  match e with
  | Zneg p => (IZR m / IZR (Z.pow_pos 10 p))%R
  | _ => IZR (m * 10 ^ e)
  end.

Definition ltb (x y : R) : bool := if Rlt_dec x y then true else false.
Definition leb (x y : R) : bool := if Rle_dec x y then true else false.
Definition eqb (x y : R) : bool := if Req_dec_T x y then true else false.

Definition grid : R := (/ IZR (2 ^ 52))%R.

(** [up r] is the least integer strictly above [r]. *)
Definition nextafter (x : R) : R := (IZR (up (x / grid)) * grid)%R.
Definition nextbefore (x : R) : R := (- nextafter (- x))%R.

End Exact.

#[export] Instance R_scalar : Scalar R := {
  lit := Exact.lit;
  t_add := Rplus;
  t_sub := Rminus;
  t_mul := Rmult;
  t_div := Rdiv;
  t_lt := Exact.ltb;
  t_le := Exact.leb;
  t_eq := Exact.eqb;
  jnp_abs := Rabs;
  jnp_sqrt := R_sqrt.sqrt;
  jnp_minimum := Rmin;
  jnp_maximum := Rmax;
  inexact := true
}.

#[export] Instance R_adjacent : Adjacent R := {
  nextafter := Exact.nextafter;
  nextbefore := Exact.nextbefore
}.

#[export] Instance R_power : Power R := Rpower.

(** ** Arrays and structured state *)

(** A PyTree of arrays; its leaves are one-dimensional here. *)
#[warnings="-register-all"]
Inductive PyTree (T : Type) : Type :=
| Leaf (a : list T)
| Node (children : list (PyTree T)).

Arguments Leaf {T} a.
Arguments Node {T} children.

(** Modelled from the spec: [ravel_pytree] is imported from [..misc], which
    is not among the sources at hand; it flattens the structured container
    to one contiguous vector. *)
Fixpoint ravel_pytree {T : Type} (x : PyTree T) : list T :=
  match x with
  | Leaf a => a
  | Node children => flat_map ravel_pytree children
  end.

(** Elementwise operation on two arrays of the same shape. *)
Fixpoint map2 {A B C : Type} (f : A -> B -> C) (xs : list A) (ys : list B)
  : list C :=
  match xs, ys with
  | x :: xs', y :: ys' => f x y :: map2 f xs' ys'
  | _, _ => []
  end.

(** The batch a call is traced in, seen from one lane: the values the
    other lanes hold at the three places where the controller reduces over
    the batch, namely the initial step size (line 177), the accept decision
    (line 223) and the step size multiplier (line 244). *)
Class Batch (T : Type) : Type := {
  other_dt0 : list T;
  other_keep_step : list bool;
  other_factor : list T
}.

(** One trajectory at a time is a batch of one lane. *)
#[export] Instance one_lane {T : Type} : Batch T := {
  other_dt0 := [];
  other_keep_step := [];
  other_factor := []
}.

Section Arrays.

Context {T : Type} `{Scalar T}.

Definition jnp_sum (x : list T) : T := fold_left t_add x zero.

Definition jnp_mean (x : list T) : T :=
  (jnp_sum x / of_Z (Z.of_nat (List.length x)))%sc.

(** [jnp.searchsorted(a, v)] with the default [side='left'], on its
    domain: for an ascending [a] without NaN it is the first index [i] with
    [v <= a[i]], and [len(a)] if there is none (a NaN [v] is at or below no
    entry).  The library finds that index by bisection; on an array that is
    not ascending the bisection and this definition can differ, so every
    statement about a search is made for a concrete ascending array or under
    the hypothesis [ascending]. *)
Fixpoint jnp_searchsorted (a : list T) (v : T) : Z :=
  match a with
  | [] => 0
  | x :: a' => if (v <=? x)%sc then 0 else 1 + jnp_searchsorted a' v
  end.

(** An array that is ascending and holds no NaN, by the comparison of the
    scalar type: every entry is at or below itself and at or below every
    later one. *)
Fixpoint ascending (a : list T) : bool :=
  match a with
  | [] => true
  | x :: a' =>
    (x <=? x)%sc && forallb (fun y => (x <=? y)%sc) a' && ascending a'
  end.

(** [a[i]] for an integer array index [i]: a negative index counts from
    the end, an index out of range is clamped, and an empty axis cannot be
    indexed. *)
Definition getitem (a : list T) (i : Z) : res T :=
  let n := Z.of_nat (List.length a) in
  let i := if (i <? 0)%Z then (i + n)%Z else i in
  let i := Z.max 0 (Z.min i (n - 1)) in
  match nth_error a (Z.to_nat i) with
  | Some x => OK x
  | None => Raise (IndexError "index is out of bounds for axis 0 with size 0")
  end.

(** Modelled from the spec: [unvmap] is imported from [..misc], which is
    not among the sources at hand.  In lockstep-batched mode it gives the
    values that a quantity takes in all the lanes of the batch, and the
    reductions of lines 177, 223 and 244 run over them.  One lane is
    followed here; [others] holds what the other lanes have at that
    place. *)
Definition unvmap {A : Type} (others : list A) (x : A) : list A :=
  x :: others.

Definition jnp_min (x : list T) : T :=
  match x with
  | [] => zero
  | x0 :: x' => fold_left jnp_minimum x' x0
  end.

Definition jnp_all (x : list bool) : bool := forallb (fun b => b) x.

Definition stop_gradient {A : Type} (x : A) : A := x.

End Arrays.

(** ** The error norm *)

Section Norm.

Context {T : Type} `{Scalar T}.

(** [v ** 2]: an integer power is a product. *)
Definition square (v : T) : T := (v * v)%sc.

Definition _rms_norm (x : PyTree T) : T :=
  let x := ravel_pytree x in
  if (List.length x =? 0)%nat then of_Z 0
  else
    let sqnorm := jnp_mean (map square x) in
    let cond := (sqnorm =? zero)%sc in
    let _sqnorm := jnp_where cond one sqnorm in
    jnp_where cond zero (jnp_sqrt _sqnorm).

End Norm.

(** ** Collaborators *)

(** What the controller uses of a solver: its derivative evaluation and its
    convergence order. *)
Record AbstractSolver (T A : Type) : Type := {
  func_for_init : T -> list T -> A -> list T;
  order : Z
}.

(** Modelled from the spec: [RESULTS] is imported from [..solution], which
    is not among the sources at hand; the controller only ever produces
    these two of its codes. *)
Inductive RESULTS : Type :=
| successful
| dt_min_reached.

(** Python's true division of the integer literal [1] by an integer. *)
Definition py_one_over {T} `{Scalar T} (n : Z) : res T :=
  if (n =? 0)%Z then Raise (ZeroDivisionError "division by zero")
  else OK (of_Z 1 / of_Z n)%sc.

(** ** Initial step selection and error scaling *)

Section Selection.

Context {T : Type} `{Scalar T} `{Power T}.
Variable A : Type.

Definition _select_initial_step
    (t0 : T) (y0 : list T) (args : A) (solver : AbstractSolver T A)
    (rtol atol : T) (unravel_y : list T -> PyTree T)
    (norm : PyTree T -> T) : res T :=
  let f0 := func_for_init solver t0 y0 args in
  let scale := map (fun y => (atol + jnp_abs y * rtol)%sc) y0 in
  let d0 := norm (unravel_y (map2 t_div y0 scale)) in
  let d1 := norm (unravel_y (map2 t_div f0 scale)) in
  let _cond := (d0 <? lit 1 (-5))%sc || (d1 <? lit 1 (-5))%sc in
  let _d1 := jnp_where _cond (of_Z 1) d1 in
  let h0 := jnp_where _cond (lit 1 (-6)) (lit 1 (-2) * (d0 / _d1))%sc in
  let t1 := (t0 + h0)%sc in
  let y1 := map2 t_add y0 (map (fun f => (h0 * f)%sc) f0) in
  let f1 := func_for_init solver t1 y1 args in
  let d2 := (norm (unravel_y (map2 t_div (map2 t_sub f1 f0) scale)) / h0)%sc in
  exponent <- py_one_over (order solver) ;;
  let h1 :=
    jnp_where ((d1 <=? lit 1 (-15))%sc || (d2 <=? lit 1 (-15))%sc)
      (jnp_maximum (lit 1 (-6)) (h0 * lit 1 (-3))%sc)
      ((lit 1 (-2) * jnp_maximum d1 d2) ** exponent)%sc in
  OK (jnp_minimum (of_Z 100 * h0)%sc h1).

Definition _scale_error_estimate
    (y_error y0 y1_candidate : list T) (unravel_y : list T -> PyTree T)
    (rtol atol : T) (norm : PyTree T -> T) : T :=
  let scale :=
    map2 t_div y_error
      (map2 (fun a b => (atol + jnp_maximum a b * rtol)%sc) y0 y1_candidate) in
  let scale := unravel_y scale in
  norm scale.

End Selection.

(** The heuristic of Hairer, Norsett and Wanner in the words of the
    specification, for comparison with [_select_initial_step]: the first
    guess from the norms [d0] and [d1], and the second from [d1], [d2] and
    the order. *)
Definition hnw_h0 {T : Type} `{Scalar T} (d0 d1 : T) : T :=
  if (d0 <? lit 1 (-5))%sc || (d1 <? lit 1 (-5))%sc then lit 1 (-6)
  else (lit 1 (-2) * (d0 / d1))%sc.

Definition hnw_h1 {T : Type} `{Scalar T} `{Power T} (d1 d2 h0 : T)
    (order : Z) : T :=
  if (d1 <=? lit 1 (-15))%sc || (d2 <=? lit 1 (-15))%sc
  then jnp_maximum (lit 1 (-6)) (h0 * lit 1 (-3))%sc
  else ((lit 1 (-2) * jnp_maximum d1 d2) ** (of_Z 1 / of_Z order))%sc.

(** ** The controller *)

Definition _ControllerState : Type := (bool * bool)%type.

(** A controller bound to a solve: the fields of the class, [unravel_y] and
    [direction] included. *)
Record IController (T : Type) : Type := {
  rtol : T;
  atol : T;
  safety : T;
  ifactor : T;
  dfactor : T;
  norm : PyTree T -> T;
  dtmin : option T;
  dtmax : option T;
  force_dtmin : bool;
  unvmap_dt : bool;
  step_ts : option (list T);
  jump_ts : option (list T);
  unravel_y : list T -> PyTree T;
  direction : T
}.

Section Clipping.

Context {T : Type} `{Scalar T} `{Adjacent T}.

Definition wrap (self : IController T) (unravel_y : list T -> PyTree T)
    (direction : T) : IController T :=
  {| rtol := rtol self;
     atol := atol self;
     safety := safety self;
     ifactor := ifactor self;
     dfactor := dfactor self;
     norm := norm self;
     dtmin := dtmin self;
     dtmax := dtmax self;
     force_dtmin := force_dtmin self;
     unvmap_dt := unvmap_dt self;
     step_ts := option_map (map (fun t => (t * direction)%sc)) (step_ts self);
     jump_ts := option_map (map (fun t => (t * direction)%sc)) (jump_ts self);
     unravel_y := unravel_y;
     direction := direction |}.

Definition _clip_step_ts (self : IController T) (t0 t1 : T) : res T :=
  match step_ts self with
  | None => OK t1
  | Some step_ts =>
    if unvmap_dt self then
      Raise (NotImplementedError
        "The interaction between step_ts and unvmap_dt has not been implemented. Set unvmap_dt=False instead.")
    else
      let t0_index := jnp_searchsorted step_ts t0 in
      let t1_index := jnp_searchsorted step_ts t1 in
      clamped <- getitem step_ts
                   (Z.min t0_index (Z.of_nat (List.length step_ts) - 1)) ;;
      let t1 := jnp_where (t0_index <? t1_index)%Z clamped t1 in
      OK t1
  end.

(** The two searches and the length are taken on [self.step_ts], as in the
    source; on [None] they raise.  The two dtype guards test [jump_ts] and
    [t1]; both have the one dtype of the scalar type here. *)
Definition _clip_jump_ts (self : IController T) (t0 t1 : T)
  : res (T * bool) :=
  match jump_ts self with
  | None => OK (t1, false)
  | Some jump_ts =>
    if unvmap_dt self then
      Raise (NotImplementedError
        "The interaction between jump_ts and unvmap_dt has not been implemented. Set unvmap_dt=False instead.")
    else if negb inexact then
      Raise (ValueError "jump_ts must be floating point")
    else if negb inexact then
      Raise (ValueError
        "t0, t1, dt0 must be floating point when specifying jump_t.")
    else
      match step_ts self with
      | None => Raise (TypeError "object of type 'NoneType' has no len()")
      | Some step_ts =>
        let t0_index := jnp_searchsorted step_ts t0 in
        let t1_index := jnp_searchsorted step_ts t1 in
        let cond := (t0_index <? t1_index)%Z in
        jump <- getitem jump_ts
                  (Z.min t0_index (Z.of_nat (List.length step_ts) - 1)) ;;
        let t1 := jnp_where cond (nextbefore jump) t1 in
        let next_made_jump := jnp_where cond true false in
        OK (t1, next_made_jump)
      end
  end.

End Clipping.

Section Stepping.

Context {T : Type} `{Scalar T} `{Adjacent T} `{Power T} {lanes : Batch T}.
Variable A : Type.

Definition _scale_factor (self : IController T) (operand : Z * bool * T)
  : T :=
  let '(order, keep_step, scaled_error) := operand in
  let dfactor := jnp_where keep_step (of_Z 1) (dfactor self) in
  let exponent := (of_Z 1 / of_Z order)%sc in
  jnp_clip (safety self / scaled_error ** exponent)%sc dfactor (ifactor self).

Definition init (self : IController T) (t0 : T) (y0 : list T)
    (dt0 : option T) (args : A) (solver : AbstractSolver T A)
  : res (T * _ControllerState) :=
  dt0 <- match dt0 with
         | None =>
           dt0 <- _select_initial_step t0 y0 args solver (rtol self)
                    (atol self) (unravel_y self) (norm self) ;;
           OK (stop_gradient dt0)
         | Some dt0 => OK dt0
         end ;;
  let dt0 :=
    if unvmap_dt self then jnp_min (unvmap other_dt0 dt0) else dt0 in
  let dt0 :=
    match dtmax self with
    | Some dtmax => jnp_minimum dt0 dtmax
    | None => dt0
    end in
  let '(at_dtmin, dt0) :=
    match dtmin self with
    | None => (false, dt0)
    | Some dtmin => ((dt0 <=? dtmin)%sc, jnp_maximum dt0 dtmin)
    end in
  t1 <- _clip_step_ts self t0 (t0 + dt0)%sc ;;
  ' (t1, jump_next_step) <- _clip_jump_ts self t0 t1 ;;
  OK (t1, (jump_next_step, at_dtmin)).

Definition adapt_step_size (self : IController T) (t0 t1 : T)
    (y0 y1_candidate : list T) (args : A) (y_error : option (list T))
    (solver_order : Z) (controller_state : _ControllerState)
  : res (bool * T * T * bool * _ControllerState * RESULTS) :=
  match y_error with
  | None =>
    Raise (ValueError
      "Cannot use adaptive step sizes with a solver that does not provide error estimates.")
  | Some y_error =>
    let prev_dt := (t1 - t0)%sc in
    let '(made_jump, at_dtmin) := controller_state in
    (* accept or reject the last step *)
    let scaled_error :=
      _scale_error_estimate y_error y0 y1_candidate (unravel_y self)
        (rtol self) (atol self) (norm self) in
    let keep_step := (scaled_error <? of_Z 1)%sc in
    let keep_step :=
      match dtmin self with
      | Some _ => keep_step || at_dtmin
      | None => keep_step
      end in
    let keep_step :=
      if unvmap_dt self
      then jnp_all (unvmap other_keep_step keep_step) else keep_step in
    (* next step size *)
    let cond := (scaled_error =? of_Z 0)%sc in
    let _scaled_error := jnp_where cond one scaled_error in
    let factor :=
      if cond then ifactor self
      else _scale_factor self (solver_order, keep_step, _scaled_error) in
    let factor := stop_gradient factor in
    let factor :=
      if unvmap_dt self
      then jnp_min (unvmap other_factor factor) else factor in
    let dt := (prev_dt * factor)%sc in
    (* clip it by dtmin and dtmax *)
    let result := successful in
    let dt :=
      match dtmax self with
      | Some dtmax => jnp_minimum dt dtmax
      | None => dt
      end in
    let '(result, at_dtmin, dt) :=
      match dtmin self with
      | None => (result, false, dt)
      | Some dtmin =>
        let result :=
          if negb (force_dtmin self)
          then jnp_where (dt <? dtmin)%sc dt_min_reached result
          else result in
        (result, (dt <=? dtmin)%sc, jnp_maximum dt dtmin)
      end in
    (* clip it by step_ts and jump_ts *)
    let _t1 :=
      if inexact then jnp_where made_jump (nextafter t1) t1 else t1 in
    let next_t0 := jnp_where keep_step _t1 t0 in
    next_t1 <- _clip_step_ts self next_t0 (next_t0 + dt)%sc ;;
    ' (next_t1, next_made_jump) <- _clip_jump_ts self next_t0 next_t1 ;;
    let controller_state := (next_made_jump, at_dtmin) in
    OK (keep_step, next_t0, next_t1, made_jump, controller_state, result)
  end.

End Stepping.

(** ** The stages of [adapt_step_size]

    The values [adapt_step_size] computes on its way, as functions of its
    inputs, so that statements can name them. *)

Section Stages.

Context {T : Type} `{Scalar T} `{Adjacent T} `{Power T} {lanes : Batch T}.

(** Lines 219 to 223: accept or reject. *)
Definition adapt_keep_step (self : IController T) (scaled_error : T)
    (at_dtmin : bool) : bool :=
  let keep_step := (scaled_error <? of_Z 1)%sc in
  let keep_step :=
    match dtmin self with
    | Some _ => keep_step || at_dtmin
    | None => keep_step
    end in
  if unvmap_dt self
  then jnp_all (unvmap other_keep_step keep_step) else keep_step.

(** Lines 234 to 242: the step size multiplier of the lane, before the
    reduction over the batch. *)
Definition adapt_lane_factor (self : IController T) (scaled_error : T)
    (solver_order : Z) (keep_step : bool) : T :=
  let cond := (scaled_error =? of_Z 0)%sc in
  let _scaled_error := jnp_where cond one scaled_error in
  let factor :=
    if cond then ifactor self
    else _scale_factor self (solver_order, keep_step, _scaled_error) in
  stop_gradient factor.

(** Lines 234 to 244: the step size multiplier that is applied, in
    lockstep-batched mode the smallest of the batch. *)
Definition adapt_factor (self : IController T) (scaled_error : T)
    (solver_order : Z) (keep_step : bool) : T :=
  let factor := adapt_lane_factor self scaled_error solver_order keep_step in
  if unvmap_dt self then jnp_min (unvmap other_factor factor) else factor.

(** Lines 245 and 252 to 253: the new step size, clipped by [dtmax] and not
    yet floored by [dtmin]. *)
Definition adapt_proposed_dt (self : IController T) (prev_dt factor : T)
  : T :=
  let dt := (prev_dt * factor)%sc in
  match dtmax self with
  | Some dtmax => jnp_minimum dt dtmax
  | None => dt
  end.

(** Lines 251 and 254 to 260: the result code, the floor flag and the
    floored step size. *)
Definition adapt_floor_dt (self : IController T) (dt : T)
  : RESULTS * bool * T :=
  let result := successful in
  match dtmin self with
  | None => (result, false, dt)
  | Some dtmin =>
    let result :=
      if negb (force_dtmin self)
      then jnp_where (dt <? dtmin)%sc dt_min_reached result
      else result in
    (result, (dt <=? dtmin)%sc, jnp_maximum dt dtmin)
  end.

(** Lines 266 to 270: where the next interval starts. *)
Definition adapt_next_t0 (keep_step made_jump : bool) (t0 t1 : T) : T :=
  let _t1 :=
    if inexact then jnp_where made_jump (nextafter t1) t1 else t1 in
  jnp_where keep_step _t1 t0.

Definition adapt_scaled_error (self : IController T)
    (y_error y0 y1_candidate : list T) : T :=
  _scale_error_estimate y_error y0 y1_candidate (unravel_y self)
    (rtol self) (atol self) (norm self).

End Stages.

(** ** Configurations *)

(** The defaults of the class (tolerances as in [scipy.integrate.solve_ivp]),
    bound to a flat state and the forward direction. *)
Definition default_controller {T : Type} `{Scalar T} : IController T :=
  {| rtol := lit 1 (-3);
     atol := lit 1 (-6);
     safety := lit 9 (-1);
     ifactor := lit 10 0;
     dfactor := lit 2 (-1);
     norm := _rms_norm;
     dtmin := None;
     dtmax := None;
     force_dtmin := true;
     unvmap_dt := false;
     step_ts := None;
     jump_ts := None;
     unravel_y := Leaf;
     direction := one |}.

Definition with_grids {T : Type} (self : IController T)
    (steps jumps : option (list T)) : IController T :=
  {| rtol := rtol self;
     atol := atol self;
     safety := safety self;
     ifactor := ifactor self;
     dfactor := dfactor self;
     norm := norm self;
     dtmin := dtmin self;
     dtmax := dtmax self;
     force_dtmin := force_dtmin self;
     unvmap_dt := unvmap_dt self;
     step_ts := steps;
     jump_ts := jumps;
     unravel_y := unravel_y self;
     direction := direction self |}.

Definition with_dtmin {T : Type} (self : IController T) (d : option T)
    (force : bool) : IController T :=
  {| rtol := rtol self;
     atol := atol self;
     safety := safety self;
     ifactor := ifactor self;
     dfactor := dfactor self;
     norm := norm self;
     dtmin := d;
     dtmax := dtmax self;
     force_dtmin := force;
     unvmap_dt := unvmap_dt self;
     step_ts := step_ts self;
     jump_ts := jump_ts self;
     unravel_y := unravel_y self;
     direction := direction self |}.

Definition with_unvmap_dt {T : Type} (self : IController T) (b : bool)
  : IController T :=
  {| rtol := rtol self;
     atol := atol self;
     safety := safety self;
     ifactor := ifactor self;
     dfactor := dfactor self;
     norm := norm self;
     dtmin := dtmin self;
     dtmax := dtmax self;
     force_dtmin := force_dtmin self;
     unvmap_dt := b;
     step_ts := step_ts self;
     jump_ts := jump_ts self;
     unravel_y := unravel_y self;
     direction := direction self |}.

(** The mandatory times of a controller are ascending, where it has
    any. *)
Definition step_ts_ascending {T : Type} `{Scalar T} (self : IController T)
  : Prop :=
  forall s, step_ts self = Some s -> ascending s = true.

(** The configuration domain of the specification: [safety] and [dfactor]
    in (0,1), [ifactor] above 1. *)
Definition config_wf (self : IController R) : Prop :=
  (0 < safety self < 1 /\ 1 < ifactor self /\ 0 < dfactor self < 1)%R.

(** The linear test problem [dy/dt = -y], with a solver of order 4. *)
Definition decay_solver {T : Type} `{Scalar T} : AbstractSolver T unit :=
  {| func_for_init := fun _ y _ => map (fun v => (zero - v)%sc) y;
     order := 4 |}.

(** Grids used in the examples of the specification. *)
Definition step_grid_125 : IController float :=
  with_grids default_controller (Some [1.0; 2.0; 5.0]%float) None.

Definition jump_grid_3 : IController float :=
  with_grids default_controller None (Some [3.0]%float).

Definition jump_grid_3_step_grid_10 : IController float :=
  with_grids default_controller (Some [10.0]%float) (Some [3.0]%float).

Definition jump_grid_3_step_grid_3 : IController float :=
  with_grids default_controller (Some [3.0]%float) (Some [3.0]%float).

Definition jump_grid_3_exact : IController R :=
  with_grids default_controller None (Some [3%R]).

(** A controller with a floor on the step size, in exact arithmetic. *)
Definition floor_controller (force : bool) : IController R :=
  with_dtmin default_controller (Some (1 / 100)%R) force.

(** A lockstep-batched controller with mandatory times. *)
Definition lockstep_step_grid : IController R :=
  with_unvmap_dt (with_grids default_controller (Some [1%R]) None) true.

(** The default controller in lockstep-batched mode, and a batch of two
    lanes seen from the first: the other lane starts with the step size
    1/4, rejects its step and proposes the multiplier 1/2. *)
Definition lockstep_controller : IController R :=
  with_unvmap_dt default_controller true.

Definition rejecting_lane : Batch R :=
  {| other_dt0 := [(1 / 4)%R];
     other_keep_step := [false];
     other_factor := [(1 / 2)%R] |}.

(** A state whose only entry is 2^600, a finite binary64 number. *)
Definition huge_state : PyTree float := Leaf [0x1p+600%float].

(** The mandatory times of the specification's example, in exact
    arithmetic, alone and together with a discontinuity at 3. *)
Definition step_grid_125_exact : IController R :=
  with_grids default_controller (Some [1; 2; 5]%R) None.

Definition both_grids_exact : IController R :=
  with_grids default_controller (Some [1; 2; 5]%R) (Some [3%R]).

Definition with_dtmax {T : Type} (self : IController T) (d : option T)
  : IController T :=
  {| rtol := rtol self;
     atol := atol self;
     safety := safety self;
     ifactor := ifactor self;
     dfactor := dfactor self;
     norm := norm self;
     dtmin := dtmin self;
     dtmax := d;
     force_dtmin := force_dtmin self;
     unvmap_dt := unvmap_dt self;
     step_ts := step_ts self;
     jump_ts := jump_ts self;
     unravel_y := unravel_y self;
     direction := direction self |}.

(** A controller with step sizes between 1/100 and 1, in exact
    arithmetic. *)
Definition bounded_controller : IController R :=
  with_dtmax (floor_controller true) (Some 1%R).

(** A controller for a backward solve, with its mandatory times given in
    descending order. *)
Definition descending_grid_exact : IController R :=
  with_grids default_controller (Some [5; 2; 1]%R) None.

(** * Properties *)

Unset Implicit Arguments.

(** ** Exact arithmetic *)

Section ExactFacts.

Open Scope R_scope.

Lemma exact_lt_iff (x y : R) : (x <? y)%sc = true <-> x < y.
Proof.
  change ((x <? y)%sc) with (Exact.ltb x y). unfold Exact.ltb.
  destruct (Rlt_dec x y); split; intros; 
    (assumption || reflexivity || discriminate || contradiction).
Qed.

Lemma exact_le_iff (x y : R) : (x <=? y)%sc = true <-> x <= y.
Proof.
  change ((x <=? y)%sc) with (Exact.leb x y). unfold Exact.leb.
  destruct (Rle_dec x y); split; intros; 
    (assumption || reflexivity || discriminate || contradiction).
Qed.

Lemma exact_eq_iff (x y : R) : (x =? y)%sc = true <-> x = y.
Proof.
  change ((x =? y)%sc) with (Exact.eqb x y). unfold Exact.eqb.
  destruct (Req_dec_T x y); split; intros; 
    (assumption || reflexivity || discriminate || contradiction).
Qed.

Lemma exact_of_Z (z : Z) : of_Z z = IZR z.
Proof.
  unfold of_Z. cbn. rewrite Z.mul_1_r. reflexivity.
Qed.

Lemma exact_zero : @zero R _ = 0.
Proof. reflexivity. Qed.

Lemma exact_one : @one R _ = 1.
Proof. reflexivity. Qed.

(** The neighbours on the grid lie strictly above and strictly below. *)
Lemma exact_nextafter_above (x : R) : x < nextafter x.
Proof.
  change (nextafter x) with (IZR (up (x / Exact.grid)) * Exact.grid).
  assert (Hg : 0 < Exact.grid).
  { unfold Exact.grid. apply Rinv_0_lt_compat, IZR_lt. reflexivity. }
  destruct (archimed (x / Exact.grid)) as [Hup _].
  apply (Rmult_lt_compat_r _ _ _ Hg) in Hup.
  replace (x / Exact.grid * Exact.grid) with x in Hup by (field; lra).
  exact Hup.
Qed.

Lemma exact_nextbefore_below (x : R) : nextbefore x < x.
Proof.
  change (nextbefore x) with (- nextafter (- x)).
  pose proof (exact_nextafter_above (- x)). lra.
Qed.

End ExactFacts.

(** ** Ordered scalars *)

Section FloatOrder.

Lemma SFcompare_refl (f : SpecFloat.spec_float) :
  f <> SpecFloat.S754_nan -> SpecFloat.SFcompare f f = Some Eq.
Proof.
  destruct f as [s|s| |s m e]; intros Hn; cbn.
  - reflexivity.
  - destruct s; reflexivity.
  - congruence.
  - rewrite Z.compare_refl.
    replace (Pos.compare_cont Eq m m) with Eq
      by (symmetry; apply Pos.compare_cont_refl).
    destruct s; reflexivity.
Qed.

Lemma SFcompare_lt_not_nan (f g : SpecFloat.spec_float) :
  SpecFloat.SFcompare f g = Some Lt ->
  f <> SpecFloat.S754_nan /\ g <> SpecFloat.S754_nan.
Proof.
  destruct f, g; cbn; intros E; split; congruence.
Qed.

Lemma float_lt_le (x y : float) :
  PrimFloat.ltb x y = true -> PrimFloat.leb x y = true.
Proof.
  rewrite FloatAxioms.ltb_spec, FloatAxioms.leb_spec.
  unfold SpecFloat.SFltb, SpecFloat.SFleb.
  destruct (SpecFloat.SFcompare _ _) as [[| |]|]; congruence.
Qed.

Lemma float_lt_not_nan (x y : float) :
  PrimFloat.ltb x y = true -> F64.is_nan x = false /\ F64.is_nan y = false.
Proof.
  rewrite FloatAxioms.ltb_spec. unfold SpecFloat.SFltb, F64.is_nan.
  destruct (SpecFloat.SFcompare _ _) as [[| |]|] eqn:E; try discriminate.
  intros _. apply SFcompare_lt_not_nan in E. destruct E as [Hx Hy].
  rewrite !FloatAxioms.eqb_spec. unfold SpecFloat.SFeqb.
  rewrite (SFcompare_refl _ Hx), (SFcompare_refl _ Hy). split; reflexivity.
Qed.

Lemma float_lt_maximum (x y : float) :
  PrimFloat.ltb x y = true -> F64.maximum x y = y.
Proof.
  intros Hlt. unfold F64.maximum.
  destruct (float_lt_not_nan x y Hlt) as [-> ->]. rewrite Hlt. reflexivity.
Qed.

End FloatOrder.

Lemma float_lt_irrefl (x : float) : PrimFloat.ltb x x = false.
Proof.
  rewrite FloatAxioms.ltb_spec. unfold SpecFloat.SFltb.
  destruct (Prim2SF x) as [s|s| |s m e] eqn:E; try reflexivity;
    rewrite SFcompare_refl by discriminate; reflexivity.
Qed.

Lemma float_ordered : OrderedScalar float.
Proof.
  split; [exact float_lt_irrefl | exact float_lt_le | exact float_lt_maximum].
Qed.

Lemma R_ordered : OrderedScalar R.
Proof.
  split.
  - intros x. destruct (x <? x)%sc eqn:E; [|reflexivity].
    apply exact_lt_iff in E. lra.
  - intros x y Hlt. apply exact_lt_iff in Hlt. apply exact_le_iff. lra.
  - intros x y Hlt. apply exact_lt_iff in Hlt.
    change (jnp_maximum x y) with (Rmax x y). apply Rmax_right. lra.
Qed.

(** The decimal literals of the source, read as binary64. *)
#[warnings="-inexact-float"]
Lemma float_literals :
  lit 1 (-5) = 1e-5%float /\ lit 1 (-6) = 1e-6%float /\
  lit 1 (-2) = 0.01%float /\ lit 1 (-3) = 1e-3%float /\
  lit 1 (-15) = 1e-15%float /\ lit 9 (-1) = 0.9%float /\
  lit 2 (-1) = 0.2%float /\ lit 10 0 = 10.0%float /\
  of_Z 100 = 100%float.
Proof. repeat split; reflexivity. Qed.

(** ** Grid clipping *)

Section ClippingFacts.

Context {T : Type} `{Scalar T} `{Adjacent T}.

Lemma searchsorted_nonneg (a : list T) (v : T) :
  (0 <= jnp_searchsorted a v <= Z.of_nat (List.length a))%Z.
Proof.
  induction a as [|x a IH]; cbn [jnp_searchsorted List.length].
  - lia.
  - destruct (v <=? x)%sc; lia.
Qed.

(** Every entry of an ascending array is at or below itself: the array
    holds no NaN. *)
Lemma ascending_refl (a : list T) :
  ascending a = true -> Forall (fun x => (x <=? x)%sc = true) a.
Proof.
  induction a as [|x a IH]; cbn [ascending]; intros Ha.
  - constructor.
  - apply andb_prop in Ha. destruct Ha as [Ha Hrest].
    apply andb_prop in Ha. destruct Ha as [Hx _].
    constructor; [exact Hx | exact (IH Hrest)].
Qed.

(** The entry at the insertion index is at or above the searched value. *)
Lemma searchsorted_at (a : list T) (v x : T) :
  nth_error a (Z.to_nat (jnp_searchsorted a v)) = Some x ->
  (v <=? x)%sc = true.
Proof.
  induction a as [|y a IH]; cbn [jnp_searchsorted].
  - discriminate.
  - destruct (v <=? y)%sc eqn:E.
    + cbn. intros [= <-]. exact E.
    + pose proof (searchsorted_nonneg a v) as Hpos.
      replace (Z.to_nat (1 + jnp_searchsorted a v))
        with (Datatypes.S (Z.to_nat (jnp_searchsorted a v))) by lia.
      cbn [nth_error]. exact IH.
Qed.

(** The searched value is at or below no entry before the insertion
    index. *)
Lemma searchsorted_before (a : list T) (k : nat) (v x : T) :
  nth_error a k = Some x -> (Z.of_nat k < jnp_searchsorted a v)%Z ->
  (v <=? x)%sc = false.
Proof.
  revert k. induction a as [|y a IH]; intros k E Hk.
  - destruct k; discriminate.
  - cbn [jnp_searchsorted] in Hk. destruct (v <=? y)%sc eqn:Ey; [lia|].
    destruct k as [|k]; cbn [nth_error] in E.
    + injection E as <-. exact Ey.
    + apply (IH k E). lia.
Qed.

Lemma getitem_nonempty (a : list T) (i : Z) :
  a <> [] -> exists x, getitem a i = OK x /\ In x a.
Proof.
  intros Ha. unfold getitem.
  set (n := Z.of_nat (List.length a)).
  set (j := Z.max 0 (Z.min (if (i <? 0)%Z then (i + n)%Z else i) (n - 1))).
  assert (Hn : (0 < n)%Z).
  { subst n. destruct a; [congruence | cbn [List.length]; lia]. }
  assert (Hj : (Z.to_nat j < List.length a)%nat).
  { subst j. destruct (i <? 0)%Z; lia. }
  destruct (nth_error a (Z.to_nat j)) eqn:E.
  - exists t. split; [reflexivity | eapply nth_error_In; eassumption].
  - apply nth_error_None in E. lia.
Qed.

(** Without [step_ts] the step clipper leaves [t1] alone. *)
Lemma clip_step_ts_none (self : IController T) (t0 t1 : T) :
  step_ts self = None -> _clip_step_ts self t0 t1 = OK t1.
Proof. intros E. unfold _clip_step_ts. rewrite E. reflexivity. Qed.

(** Without [jump_ts] the jump clipper leaves [t1] alone and raises no
    flag. *)
Lemma clip_jump_ts_none (self : IController T) (t0 t1 : T) :
  jump_ts self = None -> _clip_jump_ts self t0 t1 = OK (t1, false).
Proof. intros E. unfold _clip_jump_ts. rewrite E. reflexivity. Qed.

(** The step clipper returns either the proposed [t1] or an entry of the
    grid. *)
Lemma clip_step_ts_value (self : IController T) (t0 t1 t : T) :
  _clip_step_ts self t0 t1 = OK t ->
  t = t1 \/ exists s, step_ts self = Some s /\ In t s.
Proof.
  unfold _clip_step_ts. destruct (step_ts self) as [s|].
  - destruct (unvmap_dt self); [discriminate|].
    destruct (getitem s _) as [x|e] eqn:E; simpl; [|discriminate].
    intros [= <-]. unfold jnp_where.
    destruct (_ <? _)%Z; [right | left; reflexivity].
    exists s. split; [reflexivity|].
    unfold getitem in E. destruct (nth_error s _) eqn:En; [|discriminate].
    injection E as <-. eapply nth_error_In; eassumption.
  - intros [= <-]. left; reflexivity.
Qed.

End ClippingFacts.

Section JumpFacts.

Context {T : Type} `{Scalar T} `{Adjacent T}.

Lemma getitem_nth (a : list T) (k : nat) (x : T) :
  nth_error a k = Some x ->
  getitem a (Z.min (Z.of_nat k) (Z.of_nat (List.length a) - 1)) = OK x.
Proof.
  intros E. unfold getitem.
  assert (Hk : (k < List.length a)%nat).
  { apply nth_error_Some. congruence. }
  destruct (Z.min _ _ <? 0)%Z eqn:En; [apply Z.ltb_lt in En; lia|].
  replace (Z.to_nat _) with k by lia.
  rewrite E. reflexivity.
Qed.

(** The search for an entry of the grid that is not a NaN stops at that
    entry at the latest. *)
Lemma searchsorted_entry (a : list T) (k : nat) (v : T) :
  nth_error a k = Some v -> (v <=? v)%sc = true ->
  (jnp_searchsorted a v <= Z.of_nat k)%Z.
Proof.
  intros E Hv. revert k E. induction a as [|x a IH]; intros k E.
  - destruct k; discriminate.
  - cbn [jnp_searchsorted]. destruct k as [|k]; cbn [nth_error] in E.
    + injection E as ->. rewrite Hv. lia.
    + specialize (IH k E). destruct (v <=? x)%sc; lia.
Qed.

(** After the step clipper on an ascending grid, the two searches of the
    jump clipper, which are searches of [step_ts] as well, never tell the
    ends of the interval apart: the jump clipper changes nothing and raises
    no flag. *)
Lemma clip_jump_ts_after_clip_step_ts (self : IController T)
    (t0 t1 u v : T) (j : bool) :
  step_ts_ascending self ->
  _clip_step_ts self t0 t1 = OK u ->
  _clip_jump_ts self t0 u = OK (v, j) ->
  v = u /\ j = false.
Proof.
  intros Hasc. unfold _clip_step_ts, _clip_jump_ts.
  destruct (jump_ts self) as [js|]; [|intros _ [= <- <-]; split; reflexivity].
  destruct (step_ts self) as [s|] eqn:Es;
    [|destruct (unvmap_dt self), (negb inexact); discriminate].
  pose proof (ascending_refl s (Hasc s Es)) as Hrefl.
  destruct (unvmap_dt self); [discriminate|].
  destruct (negb inexact); [discriminate|].
  set (i0 := jnp_searchsorted s t0).
  destruct (getitem s _) as [c|x] eqn:Ec; cbn [bind]; [|discriminate].
  intros [= <-].
  assert (Hcond : (i0 <? jnp_searchsorted s
                           (jnp_where (i0 <? jnp_searchsorted s t1)%Z c t1))%Z
                  = false).
  { unfold jnp_where. destruct (i0 <? jnp_searchsorted s t1)%Z eqn:E.
    - apply Z.ltb_lt in E. apply Z.ltb_ge.
      pose proof (searchsorted_nonneg s t0) as Hi0.
      pose proof (searchsorted_nonneg s t1) as Hi1. fold i0 in Hi0.
      destruct (nth_error s (Z.to_nat i0)) as [c'|] eqn:En.
      + pose proof (getitem_nth s (Z.to_nat i0) c' En) as Hc.
        rewrite Z2Nat.id in Hc by lia. rewrite Hc in Ec.
        injection Ec as ->.
        rewrite Forall_forall in Hrefl.
        pose proof (searchsorted_entry s (Z.to_nat i0) c En
                      (Hrefl c (nth_error_In _ _ En))). lia.
      + apply nth_error_None in En. lia.
    - exact E. }
  rewrite Hcond.
  destruct (getitem js _) as [c'|x]; cbn [bind]; [|discriminate].
  intros [= <- <-]. split; reflexivity.
Qed.

End JumpFacts.

Section ExactGrid.

Open Scope R_scope.

(** Over the reals, an array sorted by [<=] is ascending. *)
Lemma exact_ascending (s : list R) :
  StronglySorted Rle s -> ascending s = true.
Proof.
  induction 1 as [|x s Hs IH Hx]; cbn [ascending]; [reflexivity|].
  rewrite IH, andb_true_r. apply andb_true_intro. split.
  - apply exact_le_iff. lra.
  - apply forallb_forall. intros y Hy. apply exact_le_iff.
    rewrite Forall_forall in Hx. exact (Hx y Hy).
Qed.

Lemma exact_step_ts_ascending (self : IController R) :
  (forall s, step_ts self = Some s -> StronglySorted Rle s) ->
  step_ts_ascending self.
Proof. intros Hs s Es. apply exact_ascending, (Hs s Es). Qed.

Lemma exact_step_ts_ascending_at (self : IController R) (s : list R) :
  step_ts self = Some s -> StronglySorted Rle s -> step_ts_ascending self.
Proof.
  intros Es Hs s' Es'. rewrite Es in Es'. injection Es' as <-.
  apply exact_ascending, Hs.
Qed.

Lemma exact_searchsorted_grid_point (s : list R) (t0 t1 : R) :
  StronglySorted Rle s -> In t0 s -> t0 < t1 ->
  exists k : nat,
    nth_error s k = Some t0 /\
    jnp_searchsorted s t0 = Z.of_nat k /\
    (Z.of_nat k < jnp_searchsorted s t1)%Z.
Proof.
  intros Hs Hin Hlt. induction Hs as [|x s Hs IH Hx].
  - destruct Hin.
  - cbn [jnp_searchsorted].
    destruct (t0 <=? x)%sc eqn:E0.
    + apply exact_le_iff in E0.
      assert (Hx0 : x = t0).
      { destruct Hin as [Heq|Hin]; [exact Heq|].
        rewrite Forall_forall in Hx. specialize (Hx t0 Hin). lra. }
      subst x.
      assert (E1 : (t1 <=? t0)%sc = false).
      { destruct (t1 <=? t0)%sc eqn:E; [|reflexivity].
        apply exact_le_iff in E. lra. }
      rewrite E1. exists 0%nat. cbn [nth_error].
      pose proof (searchsorted_nonneg s t1).
      split; [reflexivity | split; [reflexivity | lia]].
    + assert (Hx0 : x < t0).
      { destruct (Rlt_dec x t0) as [Hl|Hn]; [exact Hl|].
        assert (Hle : t0 <= x) by lra.
        apply exact_le_iff in Hle. congruence. }
      assert (E1 : (t1 <=? x)%sc = false).
      { destruct (t1 <=? x)%sc eqn:E; [|reflexivity].
        apply exact_le_iff in E. lra. }
      rewrite E1.
      destruct Hin as [->|Hin]; [lra|].
      destruct (IH Hin) as (k & Hk & Hk0 & Hk1).
      exists (Datatypes.S k). cbn [nth_error].
      split; [exact Hk | split; lia].
Qed.

(** On an ascending grid, every interval that starts at a mandatory time is
    clipped to that time: the step that follows a clamp has length zero. *)
Lemma exact_clip_step_ts_stalls (self : IController R) (s : list R)
    (t0 t1 : R) :
  step_ts self = Some s -> unvmap_dt self = false ->
  StronglySorted Rle s -> In t0 s -> t0 < t1 ->
  _clip_step_ts self t0 t1 = OK t0.
Proof.
  intros Es Eu Hs Hin Hlt. unfold _clip_step_ts. rewrite Es, Eu.
  destruct (exact_searchsorted_grid_point s t0 t1 Hs Hin Hlt)
    as (k & Hk & Hk0 & Hk1).
  rewrite Hk0. rewrite (getitem_nth s k t0 Hk). cbn [bind].
  unfold jnp_where. replace (Z.of_nat k <? _)%Z with true; [reflexivity|].
  symmetry. apply Z.ltb_lt. exact Hk1.
Qed.

(** The entries before the insertion index are below the searched value. *)
Lemma exact_searchsorted_before (s : list R) (k : nat) (x v : R) :
  nth_error s k = Some x -> (Z.of_nat k < jnp_searchsorted s v)%Z -> x < v.
Proof.
  intros E Hk. pose proof (searchsorted_before s k v x E Hk) as Hn.
  destruct (Rlt_dec x v) as [Hl|Hge]; [exact Hl|].
  assert (Hle : v <= x) by lra. apply exact_le_iff in Hle. congruence.
Qed.

(** On an ascending grid the entries from the insertion index on are not
    below the searched value. *)
Lemma exact_searchsorted_from (s : list R) (k : nat) (x v : R) :
  StronglySorted Rle s -> nth_error s k = Some x ->
  (jnp_searchsorted s v <= Z.of_nat k)%Z -> v <= x.
Proof.
  intros Hs. revert k. induction Hs as [|y s Hs IH Hy]; intros k E Hk.
  - destruct k; discriminate.
  - cbn [jnp_searchsorted] in Hk. destruct (v <=? y)%sc eqn:Ey.
    + apply exact_le_iff in Ey.
      destruct k as [|k]; cbn [nth_error] in E.
      * injection E as <-. exact Ey.
      * rewrite Forall_forall in Hy.
        specialize (Hy x (nth_error_In _ _ E)). lra.
    + pose proof (searchsorted_nonneg s v) as Hpos.
      destruct k as [|k]; cbn [nth_error] in E; [lia|].
      apply (IH k E). lia.
Qed.

Lemma exact_sorted_nth (s : list R) (i k : nat) (a b : R) :
  StronglySorted Rle s -> (i <= k)%nat ->
  nth_error s i = Some a -> nth_error s k = Some b -> a <= b.
Proof.
  intros Hs. revert i k. induction Hs as [|y s Hs IH Hy]; intros i k Hik Ea Eb.
  - destruct i; discriminate.
  - destruct i as [|i], k as [|k]; cbn [nth_error] in Ea, Eb.
    + injection Ea as <-. injection Eb as <-. lra.
    + injection Ea as <-. rewrite Forall_forall in Hy.
      exact (Hy b (nth_error_In _ _ Eb)).
    + lia.
    + apply (IH i k); [lia | assumption | assumption].
Qed.

(** On an ascending grid the step clipper never returns a [t1] beyond a
    mandatory time that lies after [t0]. *)
Lemma exact_clip_step_ts_bound (self : IController R) (s : list R)
    (t0 t1 u x : R) :
  step_ts self = Some s -> StronglySorted Rle s ->
  _clip_step_ts self t0 t1 = OK u ->
  In x s -> t0 < x -> u <= x.
Proof.
  intros Es Hs Hclip Hin Hx. unfold _clip_step_ts in Hclip.
  rewrite Es in Hclip. destruct (unvmap_dt self); [discriminate|].
  apply In_nth_error in Hin. destruct Hin as [k Ek].
  set (i0 := jnp_searchsorted s t0) in *.
  assert (Hk : (i0 <= Z.of_nat k)%Z).
  { destruct (Z_le_gt_dec i0 (Z.of_nat k)) as [Hle|Hgt]; [exact Hle|].
    pose proof (exact_searchsorted_before s k x t0 Ek ltac:(lia)). lra. }
  pose proof (searchsorted_nonneg s t0) as Hi0. fold i0 in Hi0.
  destruct (getitem s _) as [c|e] eqn:Ec; cbn [bind] in Hclip;
    [|discriminate].
  injection Hclip as <-. unfold jnp_where.
  destruct (i0 <? jnp_searchsorted s t1)%Z eqn:E.
  - assert (Hlen : (k < List.length s)%nat).
    { apply nth_error_Some. congruence. }
    destruct (nth_error s (Z.to_nat i0)) as [c'|] eqn:En.
    + pose proof (getitem_nth s (Z.to_nat i0) c' En) as Hc.
      rewrite Z2Nat.id in Hc by lia. rewrite Hc in Ec. injection Ec as ->.
      apply (exact_sorted_nth s (Z.to_nat i0) k c x Hs); [lia | exact En | exact Ek].
    + apply nth_error_None in En. lia.
  - apply Z.ltb_ge in E.
    apply (exact_searchsorted_from s k x t1 Hs Ek). lia.
Qed.

End ExactGrid.

(** C2. The step clipper clamps [t1] to the first mandatory time of the
    half-open interval from [t0] (included) to [t1] (excluded): with
    [step_ts = [1.0, 2.0, 5.0]] the interval from 0.5 to 3.0 is clamped to
    exactly 1.0, as the claim says, but the following interval, which starts
    at 1.0 and proposes 3.0, is clamped to 1.0 again and not to 2.0: the
    left-sided search counts the grid point the interval starts from, and
    the controller gets an interval of length zero. *)
Theorem clip_step_ts_stalls_on_grid_point :
  _clip_step_ts step_grid_125 0.5%float 3.0%float = OK 1.0%float /\
  jnp_searchsorted [1.0; 2.0; 5.0]%float 1.0%float = 0%Z /\
  _clip_step_ts step_grid_125 1.0%float 3.0%float = OK 1.0%float /\
  _clip_step_ts step_grid_125 1.0%float 3.0%float <> OK 2.0%float.
Proof.
  repeat split; try reflexivity.
  vm_compute. intros E. discriminate E.
Qed.

(** C1. The jump clipper does not search [jump_ts]: both insertion indices
    and the length are taken on [self.step_ts].  With [jump_ts = [3.0]] and
    no [step_ts] the clipper raises, from [init] as well; with an unrelated
    [step_ts = [10.0]] the interval from 2.0 to 4.0, which contains 3.0, is
    returned unclamped and without the jump flag.  Only when [step_ts]
    happens to hold the same time is [t1] clamped to the largest float below
    3.0; the next interval then starts at [nextafter] of that value, which
    is 3.0 itself and not the smallest float above 3.0. *)
Theorem clip_jump_ts_searches_step_ts :
  raises (_clip_jump_ts jump_grid_3 2.0%float 4.0%float) = true /\
  raises (init jump_grid_3_exact 2%R [1%R] (Some 2%R) tt decay_solver) = true /\
  _clip_jump_ts jump_grid_3_step_grid_10 2.0%float 4.0%float
    = OK (4.0%float, false) /\
  _clip_jump_ts jump_grid_3_step_grid_3 2.0%float 4.0%float
    = OK (PrimFloat.next_down 3.0%float, true) /\
  adapt_next_t0 true true 2.0%float (PrimFloat.next_down 3.0%float)
    = 3.0%float.
Proof.
  repeat split; reflexivity.
Qed.

(** ** The stages of a call *)

Section SteppingFacts.

Context {T : Type} `{Scalar T} `{Adjacent T} `{Power T} {lanes : Batch T}
  {A : Type}.

Lemma adapt_step_size_stages (self : IController T) (t0 t1 : T)
    (y0 y1_candidate : list T) (args : A) (y_error : list T)
    (solver_order : Z) (made_jump at_dtmin : bool) :
  adapt_step_size self t0 t1 y0 y1_candidate args (Some y_error)
    solver_order (made_jump, at_dtmin)
  = let scaled_error := adapt_scaled_error self y_error y0 y1_candidate in
    let keep_step := adapt_keep_step self scaled_error at_dtmin in
    let factor := adapt_factor self scaled_error solver_order keep_step in
    let floored :=
      adapt_floor_dt self (adapt_proposed_dt self (t1 - t0)%sc factor) in
    let next_t0 := adapt_next_t0 keep_step made_jump t0 t1 in
    next_t1 <- _clip_step_ts self next_t0 (next_t0 + snd floored)%sc ;;
    ' (next_t1, next_made_jump) <- _clip_jump_ts self next_t0 next_t1 ;;
    OK (keep_step, next_t0, next_t1, made_jump,
        (next_made_jump, snd (fst floored)), fst (fst floored)).
Proof.
  unfold adapt_step_size, adapt_floor_dt, adapt_proposed_dt, adapt_factor,
    adapt_lane_factor, adapt_keep_step, adapt_next_t0, adapt_scaled_error.
  destruct (dtmin self); reflexivity.
Qed.

(** What a returning call returns, stage by stage. *)
Lemma adapt_step_size_returns (self : IController T) (t0 t1 : T)
    (y0 y1_candidate : list T) (args : A) (y_error : list T)
    (solver_order : Z) (made_jump at_dtmin : bool)
    (keep_step : bool) (next_t0 next_t1 : T) (made_jump' : bool)
    (next_made_jump at_dtmin' : bool) (result : RESULTS) :
  adapt_step_size self t0 t1 y0 y1_candidate args (Some y_error)
    solver_order (made_jump, at_dtmin)
  = OK (keep_step, next_t0, next_t1, made_jump',
        (next_made_jump, at_dtmin'), result) ->
  let scaled_error := adapt_scaled_error self y_error y0 y1_candidate in
  let factor := adapt_factor self scaled_error solver_order keep_step in
  let floored :=
    adapt_floor_dt self (adapt_proposed_dt self (t1 - t0)%sc factor) in
  keep_step = adapt_keep_step self scaled_error at_dtmin /\
  next_t0 = adapt_next_t0 keep_step made_jump t0 t1 /\
  made_jump' = made_jump /\
  floored = (result, at_dtmin', snd floored) /\
  exists u,
    _clip_step_ts self next_t0 (next_t0 + snd floored)%sc = OK u /\
    _clip_jump_ts self next_t0 u = OK (next_t1, next_made_jump).
Proof.
  rewrite adapt_step_size_stages. cbv zeta.
  destruct (_clip_step_ts _ _ _) as [u|x] eqn:Es; simpl; [|discriminate].
  destruct (_clip_jump_ts _ _ _) as [[v j]|x] eqn:Ej; simpl; [|discriminate].
  intros [= <- <- <- <- <- <- <-].
  repeat split.
  - destruct (adapt_floor_dt _ _) as [[r a] d]. reflexivity.
  - exists u. split; assumption.
Qed.

(** Without grids a call with an error estimate always returns. *)
Lemma adapt_step_size_no_grids (self : IController T) (t0 t1 : T)
    (y0 y1_candidate : list T) (args : A) (y_error : list T)
    (solver_order : Z) (made_jump at_dtmin : bool) :
  step_ts self = None -> jump_ts self = None ->
  adapt_step_size self t0 t1 y0 y1_candidate args (Some y_error)
    solver_order (made_jump, at_dtmin)
  = let scaled_error := adapt_scaled_error self y_error y0 y1_candidate in
    let keep_step := adapt_keep_step self scaled_error at_dtmin in
    let factor := adapt_factor self scaled_error solver_order keep_step in
    let floored :=
      adapt_floor_dt self (adapt_proposed_dt self (t1 - t0)%sc factor) in
    let next_t0 := adapt_next_t0 keep_step made_jump t0 t1 in
    OK (keep_step, next_t0, (next_t0 + snd floored)%sc, made_jump,
        (false, snd (fst floored)), fst (fst floored)).
Proof.
  intros Es Ej. rewrite adapt_step_size_stages. cbv zeta.
  rewrite (clip_step_ts_none _ _ _ Es). simpl.
  rewrite (clip_jump_ts_none _ _ _ Ej). reflexivity.
Qed.

(** The accept decision is taken by every lane in lockstep mode. *)
Lemma jnp_all_unvmap (others : list bool) (b : bool) :
  jnp_all (unvmap others b) = b && jnp_all others.
Proof. reflexivity. Qed.

(** The decision of the lane itself, and what lockstep mode makes of it. *)
Lemma adapt_keep_step_eq (self : IController T) (scaled_error : T)
    (at_dtmin : bool) :
  adapt_keep_step self scaled_error at_dtmin
  = let decision :=
      match dtmin self with
      | Some _ => (scaled_error <? of_Z 1)%sc || at_dtmin
      | None => (scaled_error <? of_Z 1)%sc
      end in
    if unvmap_dt self then decision && jnp_all other_keep_step
    else decision.
Proof. reflexivity. Qed.

Lemma adapt_keep_step_scalar (self : IController T) (scaled_error : T)
    (at_dtmin : bool) :
  unvmap_dt self = false ->
  adapt_keep_step self scaled_error at_dtmin
  = match dtmin self with
    | Some _ => (scaled_error <? of_Z 1)%sc || at_dtmin
    | None => (scaled_error <? of_Z 1)%sc
    end.
Proof. intros Hu. rewrite adapt_keep_step_eq, Hu. reflexivity. Qed.

(** A lane that rejects makes the batch reject. *)
Lemma adapt_keep_step_rejects (self : IController T) (scaled_error : T)
    (at_dtmin : bool) :
  match dtmin self with
  | Some _ => (scaled_error <? of_Z 1)%sc || at_dtmin
  | None => (scaled_error <? of_Z 1)%sc
  end = false ->
  adapt_keep_step self scaled_error at_dtmin = false.
Proof.
  intros Hd. rewrite adapt_keep_step_eq. cbv zeta. rewrite Hd.
  destruct (unvmap_dt self); reflexivity.
Qed.

(** A lane that accepts is kept in scalar mode, and in lockstep mode when
    every other lane accepts as well. *)
Lemma adapt_keep_step_accepts (self : IController T) (scaled_error : T)
    (at_dtmin : bool) :
  match dtmin self with
  | Some _ => (scaled_error <? of_Z 1)%sc || at_dtmin
  | None => (scaled_error <? of_Z 1)%sc
  end = true ->
  adapt_keep_step self scaled_error at_dtmin
  = if unvmap_dt self then jnp_all other_keep_step else true.
Proof.
  intros Hd. rewrite adapt_keep_step_eq. cbv zeta. rewrite Hd.
  reflexivity.
Qed.

End SteppingFacts.

Section JumpFlag.

Context {T : Type} `{Scalar T} `{Adjacent T} `{Power T} {lanes : Batch T}.

(** With ascending mandatory times, no call of [init] returns a raised
    jump flag. *)
Lemma init_never_jumps (A : Type) (self : IController T)
    (t0 : T) (y0 : list T) (dt0 : option T) (args : A)
    (solver : AbstractSolver T A) (t1 : T) (jump_next_step at_dtmin : bool) :
  step_ts_ascending self ->
  init self t0 y0 dt0 args solver = OK (t1, (jump_next_step, at_dtmin)) ->
  jump_next_step = false.
Proof.
  intros Hasc. unfold init.
  destruct (match dt0 with None => _ | Some d => _ end) as [d|x];
    cbn [bind]; [|discriminate].
  destruct (match dtmin self with None => _ | Some d' => _ end) as [a dt].
  destruct (_clip_step_ts _ _ _) as [u|x] eqn:Es; cbn [bind]; [|discriminate].
  destruct (_clip_jump_ts _ _ _) as [[v j]|x] eqn:Ej; cbn [bind];
    [|discriminate].
  intros [= _ <- _].
  exact (proj2 (clip_jump_ts_after_clip_step_ts _ _ _ _ _ _ Hasc Es Ej)).
Qed.

(** With ascending mandatory times, no call of [adapt_step_size] returns a
    state with a raised jump flag. *)
Lemma adapt_step_size_never_jumps (A : Type)
    (self : IController T) (t0 t1 : T) (y0 y1_candidate : list T) (args : A)
    (y_error : list T) (solver_order : Z) (made_jump at_dtmin : bool)
    (keep_step : bool) (next_t0 next_t1 : T) (made_jump' : bool)
    (next_made_jump at_dtmin' : bool) (result : RESULTS) :
  step_ts_ascending self ->
  adapt_step_size self t0 t1 y0 y1_candidate args (Some y_error)
    solver_order (made_jump, at_dtmin)
  = OK (keep_step, next_t0, next_t1, made_jump',
        (next_made_jump, at_dtmin'), result) ->
  next_made_jump = false.
Proof.
  intros Hasc Hcall. apply adapt_step_size_returns in Hcall.
  destruct Hcall as (_ & _ & _ & _ & u & Es & Ej).
  exact (proj2 (clip_jump_ts_after_clip_step_ts _ _ _ _ _ _ Hasc Es Ej)).
Qed.

End JumpFlag.

(** ** The error norm *)

Section NormFacts.

Context {T : Type} `{Scalar T}.

Lemma rms_norm_empty (x : PyTree T) :
  ravel_pytree x = [] -> _rms_norm x = of_Z 0.
Proof. intros E. unfold _rms_norm. rewrite E. reflexivity. Qed.

Lemma rms_norm_nonempty (x : PyTree T) :
  ravel_pytree x <> [] ->
  let m := jnp_mean (map square (ravel_pytree x)) in
  _rms_norm x = if (m =? zero)%sc then zero else jnp_sqrt m.
Proof.
  intros E. unfold _rms_norm. cbv zeta.
  destruct (ravel_pytree x) as [|v l]; [congruence|].
  cbn [List.length Nat.eqb]. unfold jnp_where.
  destruct (_ =? zero)%sc; reflexivity.
Qed.

End NormFacts.

Section ExactNorm.

Open Scope R_scope.

Lemma sum_squares_from (l : list R) (a : R) :
  0 <= a -> a <= fold_left Rplus (map square l) a.
Proof.
  revert a. induction l as [|v l IH]; intros a Ha; cbn [map fold_left].
  - lra.
  - assert (Hv : 0 <= square v) by (unfold square; cbn [t_mul R_scalar]; nra).
    set (q := square v) in *.
    specialize (IH (a + q) ltac:(lra)). lra.
Qed.

Lemma sum_squares_zeros (l : list R) :
  (forall v, In v l -> v = 0) -> fold_left Rplus (map square l) 0 = 0.
Proof.
  induction l as [|v l IH]; intros Hz; cbn [map fold_left].
  - reflexivity.
  - rewrite (Hz v (or_introl eq_refl)).
    replace (0 + square 0) with 0 by (unfold square; cbn [t_mul R_scalar]; lra).
    apply IH. intros w Hw. apply Hz. right. exact Hw.
Qed.

Lemma exact_mean_squares (l : list R) :
  jnp_mean (map square l)
  = fold_left Rplus (map square l) 0 / IZR (Z.of_nat (List.length l)).
Proof.
  unfold jnp_mean, jnp_sum. rewrite exact_of_Z, length_map. reflexivity.
Qed.

Lemma exact_mean_squares_nonneg (l : list R) : 0 <= jnp_mean (map square l).
Proof.
  rewrite exact_mean_squares.
  pose proof (sum_squares_from l 0 ltac:(lra)) as Hs.
  destruct l as [|v l].
  - cbn. unfold Rdiv. rewrite Rmult_0_l. lra.
  - apply Rmult_le_pos; [exact Hs|].
    apply Rlt_le, Rinv_0_lt_compat, IZR_lt. cbn [List.length]. lia.
Qed.

Lemma exact_rms_norm_sqrt (x : PyTree R) :
  ravel_pytree x <> [] ->
  _rms_norm x = sqrt (jnp_mean (map square (ravel_pytree x))).
Proof.
  intros E. rewrite (rms_norm_nonempty x E). cbv zeta.
  destruct (_ =? zero)%sc eqn:Em; [|reflexivity].
  apply exact_eq_iff in Em. rewrite Em. symmetry. apply sqrt_0.
Qed.

Lemma exact_rms_norm_zeros (x : PyTree R) :
  (forall v, In v (ravel_pytree x) -> v = 0) -> _rms_norm x = 0.
Proof.
  intros Hz. destruct (ravel_pytree x) as [|v l] eqn:E.
  - rewrite rms_norm_empty by exact E. reflexivity.
  - rewrite exact_rms_norm_sqrt by congruence. rewrite E.
    rewrite exact_mean_squares, sum_squares_zeros by exact Hz.
    unfold Rdiv. rewrite Rmult_0_l. apply sqrt_0.
Qed.

Lemma exact_rms_norm_nonneg (x : PyTree R) : 0 <= _rms_norm x.
Proof.
  destruct (ravel_pytree x) as [|v l] eqn:E.
  - rewrite rms_norm_empty by exact E. cbn. lra.
  - rewrite exact_rms_norm_sqrt by congruence. apply sqrt_pos.
Qed.

(** On a state of one entry the norm is the absolute value. *)
Lemma exact_rms_norm_singleton (v : R) : _rms_norm (Leaf [v]) = Rabs v.
Proof.
  rewrite exact_rms_norm_sqrt by (cbn; congruence).
  cbn [ravel_pytree]. rewrite exact_mean_squares.
  cbn [map fold_left List.length Z.of_nat Pos.of_succ_nat].
  replace ((0 + square v) / 1) with (Rsqr v)
    by (unfold square, Rsqr; cbn [t_mul R_scalar]; lra).
  apply sqrt_Rsqr_abs.
Qed.

End ExactNorm.

(** C8, as amended.  The norm of the empty state is exactly 0; the norm of a
    state with entries is 0 when the mean of the squares is 0 and the square
    root of that mean otherwise, on every scalar type.  In exact arithmetic
    the all-zero state has norm 0, every state with entries has norm
    [sqrt (mean (x^2))], and the norm is never negative. *)
Theorem rms_norm_rule :
  (forall (T : Type) (S : Scalar T) (x : PyTree T),
      (ravel_pytree x = [] -> _rms_norm x = of_Z 0) /\
      (ravel_pytree x <> [] ->
       let m := jnp_mean (map square (ravel_pytree x)) in
       _rms_norm x = if (m =? zero)%sc then zero else jnp_sqrt m)) /\
  (forall x : PyTree R,
      ((forall v, In v (ravel_pytree x) -> v = 0%R) -> _rms_norm x = 0%R) /\
      (ravel_pytree x <> [] ->
       _rms_norm x = sqrt (jnp_mean (map square (ravel_pytree x)))) /\
      (0 <= _rms_norm x)%R).
Proof.
  split.
  - intros T S x. split.
    + apply rms_norm_empty.
    + apply rms_norm_nonempty.
  - intros x. split; [|split].
    + apply exact_rms_norm_zeros.
    + apply exact_rms_norm_sqrt.
    + apply exact_rms_norm_nonneg.
Qed.

Lemma rms_norm_rule_witness :
  _rms_norm (Leaf [0%R; 0%R]) = 0%R /\
  _rms_norm (Leaf [3%R]) = sqrt (jnp_mean (map square [3%R])).
Proof.
  split.
  - apply (proj1 (proj2 rms_norm_rule (Leaf [0%R; 0%R]))).
    intros v [<-|[<-|[]]]; reflexivity.
  - apply (proj1 (proj2 (proj2 rms_norm_rule (Leaf [3%R])))).
    discriminate.
Defined.

(** The square of a finite entry can overflow: the norm of a finite state
    is then infinite. *)
Lemma rms_norm_overflows :
  forallb F64.is_finite (ravel_pytree huge_state) = true /\
  _rms_norm huge_state = PrimFloat.infinity /\
  F64.is_finite (_rms_norm huge_state) = false.
Proof. repeat split; reflexivity. Qed.

(** ** Accepting and rejecting *)

(** C4. In scalar mode [keep_step] is true exactly when the scaled error is
    below 1, except that with [dtmin] configured and the incoming
    [at_dtmin] set it is true whatever the scaled error.  In
    lockstep-batched mode (lines 222 to 223) this decision of the lane is
    AND-reduced with the decisions of the other lanes: the step is kept
    when the lane keeps it by the same rule and every other lane keeps its
    own. *)
Theorem keep_step_rule :
  forall (T : Type) (S : Scalar T) (Adj : Adjacent T) (P : Power T)
    (B : Batch T) (A : Type) (self : IController T) (t0 t1 : T)
    (y0 y1_candidate : list T) (args : A) (y_error : list T)
    (solver_order : Z) (made_jump at_dtmin : bool)
    (keep_step : bool) (next_t0 next_t1 : T) (made_jump' : bool)
    (state' : _ControllerState) (result : RESULTS),
    adapt_step_size self t0 t1 y0 y1_candidate args (Some y_error)
      solver_order (made_jump, at_dtmin)
    = OK (keep_step, next_t0, next_t1, made_jump', state', result) ->
    let scaled_error :=
      _scale_error_estimate y_error y0 y1_candidate (unravel_y self)
        (rtol self) (atol self) (norm self) in
    (unvmap_dt self = false ->
     (dtmin self <> None /\ at_dtmin = true -> keep_step = true) /\
     (~ (dtmin self <> None /\ at_dtmin = true) ->
      (keep_step = true <-> (scaled_error <? of_Z 1)%sc = true))) /\
    (unvmap_dt self = true ->
     (dtmin self <> None /\ at_dtmin = true ->
      keep_step = jnp_all other_keep_step) /\
     (~ (dtmin self <> None /\ at_dtmin = true) ->
      (keep_step = true <->
       (scaled_error <? of_Z 1)%sc = true /\
       jnp_all other_keep_step = true))).
Proof.
  intros T S Adj P B A self t0 t1 y0 y1 args e k mj ad keep nt0 nt1 mj'
    [nmj ad'] r Hcall.
  apply adapt_step_size_returns in Hcall.
  destruct Hcall as (Hkeep & _).
  rewrite adapt_keep_step_eq in Hkeep. unfold adapt_scaled_error in Hkeep.
  cbv zeta in Hkeep |- *. subst keep.
  split; intros Hu; rewrite Hu.
  - destruct (dtmin self) as [d|].
    + split.
      * intros [_ ->]. apply orb_true_r.
      * intros Hn. destruct ad.
        -- exfalso. apply Hn. split; [discriminate | reflexivity].
        -- rewrite orb_false_r. reflexivity.
    + split.
      * intros [Hd _]. congruence.
      * intros _. reflexivity.
  - destruct (dtmin self) as [d|].
    + split.
      * intros [_ ->]. rewrite orb_true_r. reflexivity.
      * intros Hn. destruct ad.
        -- exfalso. apply Hn. split; [discriminate | reflexivity].
        -- rewrite orb_false_r. apply andb_true_iff.
    + split.
      * intros [Hd _]. congruence.
      * intros _. apply andb_true_iff.
Qed.

Lemma keep_step_rule_witness :
  (exists keep_step next_t0 next_t1 state' result,
      adapt_step_size (floor_controller true) 0%R 1%R [1%R] [1%R] tt
        (Some [1%R]) 4 (false, true)
      = OK (keep_step, next_t0, next_t1, false, state', result) /\
      keep_step = true) /\
  (exists keep_step next_t0 next_t1 state' result,
      adapt_step_size (lanes := rejecting_lane) lockstep_controller
        0%R 1%R [1%R] [1%R] tt (Some [0%R]) 4 (false, false)
      = OK (keep_step, next_t0, next_t1, false, state', result) /\
      keep_step = false).
Proof.
  split.
  - pose proof (adapt_step_size_no_grids (floor_controller true) 0%R 1%R
                  [1%R] [1%R] tt [1%R] 4 false true eq_refl eq_refl)
      as Hcall.
    cbv zeta in Hcall.
    pose proof Hcall as Hrule. apply keep_step_rule in Hrule.
    do 5 eexists. split; [exact Hcall|].
    destruct (proj1 Hrule eq_refl) as [Hforced _].
    apply Hforced. split; [discriminate | reflexivity].
  - pose proof (adapt_step_size_no_grids (lanes := rejecting_lane)
                  lockstep_controller 0%R 1%R
                  [1%R] [1%R] tt [0%R] 4 false false eq_refl eq_refl)
      as Hcall.
    cbv zeta in Hcall.
    pose proof Hcall as Hrule. apply keep_step_rule in Hrule.
    do 5 eexists. split; [exact Hcall|].
    destruct (proj2 Hrule eq_refl) as [_ Hiff].
    destruct (adapt_keep_step _ _ _); [|reflexivity].
    assert (Hn : ~ (dtmin lockstep_controller <> None /\ false = true)).
    { intros [_ Hf]. discriminate Hf. }
    destruct (proj1 (Hiff Hn) eq_refl) as [_ Hall]. discriminate Hall.
Defined.

(** ** The step size multiplier *)

Section FactorFacts.

Context {T : Type} `{Scalar T} `{Power T} {lanes : Batch T}.

(** The multiplier of the lane, as lines 234 to 242 and 277 to 283 compute
    it. *)
Lemma adapt_lane_factor_eq (self : IController T) (scaled_error : T)
    (solver_order : Z) (keep_step : bool) :
  adapt_lane_factor self scaled_error solver_order keep_step
  = if (scaled_error =? of_Z 0)%sc then ifactor self
    else jnp_clip
           (safety self / scaled_error ** (of_Z 1 / of_Z solver_order))%sc
           (if keep_step then of_Z 1 else dfactor self) (ifactor self).
Proof.
  unfold adapt_lane_factor, _scale_factor, stop_gradient, jnp_where.
  destruct (scaled_error =? of_Z 0)%sc; reflexivity.
Qed.

(** The multiplier that is applied: in lockstep mode the smallest of the
    batch. *)
Lemma adapt_factor_eq (self : IController T) (scaled_error : T)
    (solver_order : Z) (keep_step : bool) :
  adapt_factor self scaled_error solver_order keep_step
  = let factor :=
      adapt_lane_factor self scaled_error solver_order keep_step in
    if unvmap_dt self then jnp_min (unvmap other_factor factor) else factor.
Proof. reflexivity. Qed.

Lemma adapt_factor_scalar (self : IController T) (scaled_error : T)
    (solver_order : Z) (keep_step : bool) :
  unvmap_dt self = false ->
  adapt_factor self scaled_error solver_order keep_step
  = adapt_lane_factor self scaled_error solver_order keep_step.
Proof. intros Hu. rewrite adapt_factor_eq, Hu. reflexivity. Qed.

End FactorFacts.

Section ExactFactor.

Open Scope R_scope.

Lemma Rpower_ge_1 (x y : R) : 1 <= x -> 0 <= y -> 1 <= Rpower x y.
Proof.
  intros Hx Hy. unfold Rpower.
  assert (Hln : 0 <= ln x).
  { destruct Hx as [Hx|<-].
    - rewrite <- ln_1. left. apply ln_increasing; lra.
    - rewrite ln_1. lra. }
  assert (Harg : 0 <= y * ln x) by (apply Rmult_le_pos; assumption).
  destruct Harg as [Harg|<-].
  - left. rewrite <- exp_0. apply exp_increasing. exact Harg.
  - rewrite exp_0. lra.
Qed.

Lemma default_controller_wf : config_wf default_controller.
Proof.
  unfold config_wf. cbn. lra.
Qed.

Lemma exact_clip (a lo hi : R) : jnp_clip a lo hi = Rmin hi (Rmax lo a).
Proof. reflexivity. Qed.

(** The smallest value of a batch is at most the value of the lane. *)
Lemma exact_jnp_min_le (others : list R) (x : R) :
  jnp_min (unvmap others x) <= x.
Proof.
  unfold unvmap, jnp_min. change (@jnp_minimum R R_scalar) with Rmin.
  revert x. induction others as [|o others IH]; intros x; cbn [fold_left].
  - lra.
  - specialize (IH (Rmin x o)). pose proof (Rmin_l x o). lra.
Qed.

(** It is at least every lower bound of the batch. *)
Lemma exact_jnp_min_ge (others : list R) (x lo : R) :
  lo <= x -> Forall (fun f => lo <= f) others ->
  lo <= jnp_min (unvmap others x).
Proof.
  unfold unvmap, jnp_min. change (@jnp_minimum R R_scalar) with Rmin.
  intros Hx Ho. revert x Hx.
  induction Ho as [|o others Ho _ IH]; intros x Hx; cbn [fold_left].
  - exact Hx.
  - apply IH. apply Rmin_glb; assumption.
Qed.

(** It grows with the value of the lane, the other lanes being fixed. *)
Lemma exact_jnp_min_mono (others : list R) (x y : R) :
  x <= y -> jnp_min (unvmap others x) <= jnp_min (unvmap others y).
Proof.
  unfold unvmap, jnp_min. change (@jnp_minimum R R_scalar) with Rmin.
  revert x y. induction others as [|o others IH]; intros x y Hxy;
    cbn [fold_left].
  - exact Hxy.
  - apply IH. apply Rle_min_compat_r. exact Hxy.
Qed.

(** A rejected step with a scaled error of at least 1 shrinks the step
    size, by no more than [dfactor]. *)
Lemma exact_factor_rejected (self : IController R) (scaled_error : R)
    (solver_order : Z) :
  config_wf self -> (1 <= solver_order)%Z -> 1 <= scaled_error ->
  dfactor self <= adapt_lane_factor self scaled_error solver_order false
  <= Rmax (dfactor self) (safety self).
Proof.
  intros (Hs & Hi & Hd) Ho He.
  rewrite adapt_lane_factor_eq.
  destruct (scaled_error =? of_Z 0)%sc eqn:E0.
  { apply exact_eq_iff in E0. rewrite exact_of_Z in E0. lra. }
  rewrite exact_clip, !exact_of_Z.
  change (@t_div R R_scalar) with Rdiv.
  change (@t_pow R R_power) with Rpower.
  set (p := Rpower scaled_error (1 / IZR solver_order)).
  assert (Hp : 1 <= p).
  { apply Rpower_ge_1; [exact He|].
    apply Rlt_le, Rdiv_lt_0_compat; [lra|]. apply IZR_lt. lia. }
  assert (Hq : 0 < safety self / p <= safety self).
  { split.
    - apply Rdiv_lt_0_compat; lra.
    - assert (Hinv : / p <= 1).
      { rewrite <- Rinv_1. apply Rinv_le_contravar; lra. }
      assert (Hpos : 0 < / p) by (apply Rinv_0_lt_compat; lra).
      unfold Rdiv. nra. }
  unfold Rmin, Rmax.
  destruct (Rle_dec (dfactor self) (safety self / p));
    destruct (Rle_dec (ifactor self) _);
    destruct (Rle_dec (dfactor self) (safety self)); lra.
Qed.

(** A scaled error of at least 1 is not below 1. *)
Lemma exact_error_not_below_1 (scaled_error : R) :
  1 <= scaled_error -> (scaled_error <? of_Z 1)%sc = false.
Proof.
  intros Hse. destruct (scaled_error <? of_Z 1)%sc eqn:E; [|reflexivity].
  apply exact_lt_iff in E. rewrite exact_of_Z in E. lra.
Qed.

End ExactFactor.

(** ** The floor on the step size *)

Section FloorFacts.

Context {T : Type} `{OrderedScalar T}.

(** Flooring a step size that is below [dtmin]. *)
Lemma adapt_floor_dt_below (self : IController T) (dt d : T) :
  dtmin self = Some d -> (dt <? d)%sc = true ->
  adapt_floor_dt self dt
  = (if force_dtmin self then successful else dt_min_reached, true, d).
Proof.
  intros Hd Hlt. unfold adapt_floor_dt. rewrite Hd.
  rewrite (lt_le _ _ Hlt), (lt_maximum _ _ Hlt). unfold jnp_where.
  rewrite Hlt. destruct (force_dtmin self); reflexivity.
Qed.

End FloorFacts.

Section ExactCalls.

Open Scope R_scope.

(** The scaled error of a state of one entry, under the RMS norm. *)
Lemma exact_scaled_error_singleton (self : IController R) (e a b : R) :
  norm self = _rms_norm -> unravel_y self = Leaf ->
  adapt_scaled_error self [e] [a] [b]
  = Rabs (e / (atol self + Rmax a b * rtol self)).
Proof.
  intros Hn Hu. unfold adapt_scaled_error, _scale_error_estimate.
  rewrite Hn, Hu. cbn [map2]. apply exact_rms_norm_singleton.
Qed.

(** A step without error, under the RMS norm. *)
Lemma exact_scaled_error_zero (self : IController R) (a b : R) :
  norm self = _rms_norm -> unravel_y self = Leaf ->
  adapt_scaled_error self [0] [a] [b] = 0.
Proof.
  intros Hn Hu. rewrite exact_scaled_error_singleton by assumption.
  unfold Rdiv. rewrite Rmult_0_l. apply Rabs_R0.
Qed.

Lemma exact_lane_factor_zero_error (self : IController R)
    (solver_order : Z) (keep_step : bool) :
  adapt_lane_factor self 0 solver_order keep_step = ifactor self.
Proof.
  rewrite adapt_lane_factor_eq.
  replace (@t_eq R R_scalar 0 (of_Z 0)) with true; [reflexivity|].
  symmetry. apply exact_eq_iff. rewrite exact_of_Z. reflexivity.
Qed.

Lemma exact_factor_zero_error {lanes : Batch R} (self : IController R)
    (solver_order : Z) (keep_step : bool) :
  unvmap_dt self = false ->
  adapt_factor self 0 solver_order keep_step = ifactor self.
Proof.
  intros Hu. rewrite adapt_factor_scalar by exact Hu.
  apply exact_lane_factor_zero_error.
Qed.

(** The scaled error of the error estimate [1] at the state [1] is far
    above 1 under the default tolerances. *)
Lemma exact_default_scaled_error :
  1 <= adapt_scaled_error default_controller [1] [1] [1].
Proof.
  rewrite exact_scaled_error_singleton by reflexivity.
  cbn [atol rtol default_controller].
  change (lit 1 (-6)) with (1 / 1000000).
  change (lit 1 (-3)) with (1 / 1000).
  rewrite Rmax_left by lra.
  replace (1 / (1 / 1000000 + 1 * (1 / 1000)))
    with (1000000 / 1001) by field.
  rewrite Rabs_pos_eq by lra. lra.
Qed.

(** A step of length 1 without error, under the default controller: it is
    kept, and the next step is ten times as long. *)
Lemma exact_call_without_error :
  adapt_step_size default_controller 0 1 [1] [1] tt (Some [0]) 4
    (false, false)
  = OK (true, 1, 11, false, (false, false), successful).
Proof.
  rewrite adapt_step_size_no_grids by reflexivity. cbv zeta.
  rewrite exact_scaled_error_zero by reflexivity.
  assert (Hkeep : adapt_keep_step (T:=R) default_controller 0 false = true).
  { rewrite adapt_keep_step_scalar by reflexivity.
    cbn [dtmin default_controller].
    apply exact_lt_iff. rewrite exact_of_Z. lra. }
  rewrite Hkeep, exact_factor_zero_error by reflexivity.
  unfold adapt_floor_dt, adapt_proposed_dt, adapt_next_t0, jnp_where.
  cbn. replace (1 + (1 - 0) * 10) with 11 by lra. reflexivity.
Qed.

End ExactCalls.

Section FactorCalls.

Context {T : Type} `{Scalar T} `{Adjacent T} `{Power T} {lanes : Batch T}
  {A : Type}.

(** What a returning call makes of the multiplier: the result code, the
    floor flag and the next interval are those of the step size
    [(t1 - t0) * multiplier], clipped by [dtmax], floored by [dtmin] and
    passed to the grid clippers. *)
Lemma adapt_step_size_multiplier (self : IController T) (t0 t1 : T)
    (y0 y1_candidate : list T) (args : A) (y_error : list T)
    (solver_order : Z) (made_jump at_dtmin : bool)
    (keep_step : bool) (next_t0 next_t1 : T) (made_jump' : bool)
    (next_made_jump at_dtmin' : bool) (result : RESULTS) :
  adapt_step_size self t0 t1 y0 y1_candidate args (Some y_error)
    solver_order (made_jump, at_dtmin)
  = OK (keep_step, next_t0, next_t1, made_jump',
        (next_made_jump, at_dtmin'), result) ->
  let scaled_error := adapt_scaled_error self y_error y0 y1_candidate in
  let low := if keep_step then of_Z 1 else dfactor self in
  let factor :=
    if (scaled_error =? of_Z 0)%sc then ifactor self
    else jnp_clip
           (safety self / scaled_error ** (of_Z 1 / of_Z solver_order))%sc
           low (ifactor self) in
  let multiplier :=
    if unvmap_dt self then jnp_min (unvmap other_factor factor)
    else factor in
  let floored :=
    adapt_floor_dt self
      (adapt_proposed_dt self (t1 - t0)%sc multiplier) in
  fst floored = (result, at_dtmin') /\
  (exists u,
      _clip_step_ts self next_t0 (next_t0 + snd floored)%sc = OK u /\
      _clip_jump_ts self next_t0 u = OK (next_t1, next_made_jump)) /\
  (dtmin self = None -> dtmax self = None ->
   step_ts self = None -> jump_ts self = None ->
   next_t1 = (next_t0 + (t1 - t0) * multiplier)%sc).
Proof.
  intros Hcall. apply adapt_step_size_returns in Hcall.
  cbv zeta in Hcall |- *.
  destruct Hcall as (_ & _ & _ & Hfloor & u & Hs & Hj).
  rewrite adapt_factor_eq in Hfloor, Hs. cbv zeta in Hfloor, Hs.
  rewrite adapt_lane_factor_eq in Hfloor, Hs.
  set (m := if unvmap_dt self then _ else _) in *. clearbody m.
  split; [|split].
  - rewrite Hfloor. reflexivity.
  - exists u. split; assumption.
  - intros Em EM Es Ej.
    rewrite (clip_step_ts_none _ _ _ Es) in Hs. injection Hs as <-.
    rewrite (clip_jump_ts_none _ _ _ Ej) in Hj. injection Hj as <- _.
    unfold adapt_floor_dt, adapt_proposed_dt. rewrite Em, EM. reflexivity.
Qed.

End FactorCalls.

(** C3. Of a call of [adapt_step_size] that returns: the multiplier of the
    lane is [ifactor] when the scaled error is 0, and otherwise
    [safety / scaled_error ** (1 / solver_order)] clipped to between [low]
    and [ifactor], where [low] is 1 for a kept step and [dfactor] for a
    rejected one; in lockstep-batched mode the smallest multiplier of the
    batch is applied (lines 243 to 244).  The result code, the floor flag
    and the next interval the call returns are those of the step size
    [(t1 - t0) * multiplier]; without step size bounds and grids the next
    interval is exactly that long.  In exact arithmetic, for a configuration
    of the specified domain and a solver of positive order, a call with a
    scaled error of at least 1 and an incoming [at_dtmin] of [False] rejects
    the step and the multiplier of the lane lies between [dfactor] and 1;
    in scalar mode the retried interval is that many times as long. *)
Theorem step_factor_rule :
  (forall (T : Type) (S : Scalar T) (Adj : Adjacent T) (P : Power T)
      (B : Batch T) (A : Type) (self : IController T) (t0 t1 : T)
      (y0 y1_candidate : list T) (args : A) (y_error : list T)
      (solver_order : Z) (made_jump at_dtmin : bool)
      (keep_step : bool) (next_t0 next_t1 : T) (made_jump' : bool)
      (next_made_jump at_dtmin' : bool) (result : RESULTS),
      adapt_step_size self t0 t1 y0 y1_candidate args (Some y_error)
        solver_order (made_jump, at_dtmin)
      = OK (keep_step, next_t0, next_t1, made_jump',
            (next_made_jump, at_dtmin'), result) ->
      let scaled_error := adapt_scaled_error self y_error y0 y1_candidate in
      let low := if keep_step then of_Z 1 else dfactor self in
      let factor :=
        if (scaled_error =? of_Z 0)%sc then ifactor self
        else jnp_clip
               (safety self
                / scaled_error ** (of_Z 1 / of_Z solver_order))%sc
               low (ifactor self) in
      let multiplier :=
        if unvmap_dt self then jnp_min (unvmap other_factor factor)
        else factor in
      let floored :=
        adapt_floor_dt self
          (adapt_proposed_dt self (t1 - t0)%sc multiplier) in
      fst floored = (result, at_dtmin') /\
      (exists u,
          _clip_step_ts self next_t0 (next_t0 + snd floored)%sc = OK u /\
          _clip_jump_ts self next_t0 u = OK (next_t1, next_made_jump)) /\
      (dtmin self = None -> dtmax self = None ->
       step_ts self = None -> jump_ts self = None ->
       next_t1 = (next_t0 + (t1 - t0) * multiplier)%sc)) /\
  (forall (B : Batch R) (A : Type) (self : IController R) (t0 t1 : R)
      (y0 y1_candidate : list R) (args : A) (y_error : list R)
      (solver_order : Z) (made_jump : bool)
      (keep_step : bool) (next_t0 next_t1 : R) (made_jump' : bool)
      (next_made_jump at_dtmin' : bool) (result : RESULTS),
      config_wf self -> (1 <= solver_order)%Z ->
      adapt_step_size self t0 t1 y0 y1_candidate args (Some y_error)
        solver_order (made_jump, false)
      = OK (keep_step, next_t0, next_t1, made_jump',
            (next_made_jump, at_dtmin'), result) ->
      let scaled_error := adapt_scaled_error self y_error y0 y1_candidate in
      (1 <= scaled_error)%R ->
      let factor :=
        jnp_clip
          (safety self / scaled_error ** (of_Z 1 / of_Z solver_order))%sc
          (dfactor self) (ifactor self) in
      keep_step = false /\
      (dfactor self <= factor <= 1)%R /\
      (unvmap_dt self = false ->
       dtmin self = None -> dtmax self = None ->
       step_ts self = None -> jump_ts self = None ->
       next_t0 = t0 /\ next_t1 = (t0 + (t1 - t0) * factor)%R)).
Proof.
  split.
  - intros T S Adj P B A self t0 t1 y0 y1 args e k mj ad keep nt0 nt1 mj'
      nmj ad' r Hcall.
    exact (adapt_step_size_multiplier self t0 t1 y0 y1 args e k mj ad keep
             nt0 nt1 mj' nmj ad' r Hcall).
  - intros B A self t0 t1 y0 y1 args e k mj keep nt0 nt1 mj' nmj ad' r
      Hwf Hk Hcall. cbv zeta. intros Hse.
    pose proof (adapt_step_size_multiplier self t0 t1 y0 y1 args e k mj
                  false keep nt0 nt1 mj' nmj ad' r Hcall) as Hmult.
    cbv zeta in Hmult. destruct Hmult as (_ & _ & Hnext).
    apply adapt_step_size_returns in Hcall.
    destruct Hcall as (Hkeep & Hnt0 & _).
    assert (Hrej : keep = false).
    { rewrite Hkeep. apply adapt_keep_step_rejects.
      rewrite (exact_error_not_below_1 _ Hse).
      destruct (dtmin self); reflexivity. }
    clear Hkeep. subst keep.
    assert (E0 : (adapt_scaled_error self e y0 y1 =? of_Z 0)%sc = false).
    { destruct (_ =? of_Z 0)%sc eqn:E; [|reflexivity].
      apply exact_eq_iff in E. rewrite exact_of_Z in E. lra. }
    rewrite E0 in Hnext.
    pose proof (exact_factor_rejected self _ k Hwf Hk Hse) as [Hlo Hhi].
    rewrite adapt_lane_factor_eq, E0 in Hlo, Hhi.
    destruct Hwf as (Hsaf & Hi & Hd).
    assert (Hone : (Rmax (dfactor self) (safety self) < 1)%R)
      by (apply Rmax_lub_lt; lra).
    split; [reflexivity|]. split.
    { split; [exact Hlo|].
      apply Rle_trans with (Rmax (dfactor self) (safety self));
        [exact Hhi | lra]. }
    intros Hu Em EM Es Ej. rewrite Hu in Hnext.
    split; [rewrite Hnt0; reflexivity|].
    rewrite (Hnext Em EM Es Ej). rewrite Hnt0. reflexivity.
Qed.

Lemma step_factor_rule_witness :
  exists keep_step next_t0 next_t1 next_made_jump at_dtmin' result,
    adapt_step_size default_controller 0%R 1%R [1%R] [1%R] tt (Some [1%R]) 4
      (false, false)
    = OK (keep_step, next_t0, next_t1, false,
          (next_made_jump, at_dtmin'), result) /\
    keep_step = false /\ (0 + dfactor default_controller * (1 - 0)
                          <= next_t1 <= 1)%R.
Proof.
  pose proof (adapt_step_size_no_grids default_controller 0%R 1%R
                [1%R] [1%R] tt [1%R] 4 false false eq_refl eq_refl) as Hcall.
  cbv zeta in Hcall.
  assert (Hk : (1 <= 4)%Z) by lia.
  pose proof (proj2 step_factor_rule one_lane unit default_controller
                0%R 1%R [1%R] [1%R] tt [1%R] 4%Z false _ _ _ _ _ _ _
                default_controller_wf Hk Hcall
                exact_default_scaled_error) as (Hkeep & Hrange & Hnext).
  destruct (Hnext eq_refl eq_refl eq_refl eq_refl eq_refl) as [_ Hend].
  do 6 eexists. split; [exact Hcall|]. split; [exact Hkeep|].
  rewrite Hend. nra.
Defined.

(** C5. With [dtmin = d], when the step size after the multiplier and the
    [dtmax] clip is below [d], the step size the next interval is built from
    is exactly [d], the returned state has [at_dtmin] set, and the result is
    [successful] with [force_dtmin] and [dt_min_reached] without it.  This
    holds for every scalar type whose comparisons are ordered, binary64
    among them. *)
Theorem dtmin_floor_rule :
  forall (T : Type) (S : Scalar T) (L : OrderedScalar T) (Adj : Adjacent T)
    (P : Power T) (B : Batch T) (A : Type) (self : IController T) (d : T)
    (t0 t1 : T)
    (y0 y1_candidate : list T) (args : A) (y_error : list T)
    (solver_order : Z) (made_jump at_dtmin : bool)
    (keep_step : bool) (next_t0 next_t1 : T) (made_jump' : bool)
    (next_made_jump at_dtmin' : bool) (result : RESULTS),
    dtmin self = Some d ->
    adapt_step_size self t0 t1 y0 y1_candidate args (Some y_error)
      solver_order (made_jump, at_dtmin)
    = OK (keep_step, next_t0, next_t1, made_jump',
          (next_made_jump, at_dtmin'), result) ->
    let scaled_error := adapt_scaled_error self y_error y0 y1_candidate in
    let factor := adapt_factor self scaled_error solver_order keep_step in
    let dt := adapt_proposed_dt self (t1 - t0)%sc factor in
    (dt <? d)%sc = true ->
    snd (adapt_floor_dt self dt) = d /\
    at_dtmin' = true /\
    result = (if force_dtmin self then successful else dt_min_reached) /\
    exists u,
      _clip_step_ts self next_t0 (next_t0 + d)%sc = OK u /\
      _clip_jump_ts self next_t0 u = OK (next_t1, next_made_jump).
Proof.
  intros T S L Adj P B A self d t0 t1 y0 y1 args e k mj ad keep nt0 nt1 mj'
    nmj ad' r Hd Hcall.
  apply adapt_step_size_returns in Hcall.
  destruct Hcall as (_ & _ & _ & Hfloor & u & Hs & Hj).
  cbv zeta. intros Hlt.
  rewrite (adapt_floor_dt_below self _ d Hd Hlt) in Hfloor, Hs |- *.
  cbn [snd] in Hfloor, Hs |- *.
  injection Hfloor as <- <-.
  repeat split. exists u. split; assumption.
Qed.

Lemma dtmin_floor_rule_witness :
  exists keep_step next_t0 next_t1 next_made_jump at_dtmin' result,
    adapt_step_size (floor_controller false) 0%R (1 / 10000)%R [1%R] [1%R]
      tt (Some [0%R]) 4 (false, false)
    = OK (keep_step, next_t0, next_t1, false,
          (next_made_jump, at_dtmin'), result) /\
    at_dtmin' = true /\ result = dt_min_reached.
Proof.
  pose proof (adapt_step_size_no_grids (floor_controller false) 0%R
                (1 / 10000)%R [1%R] [1%R] tt [0%R] 4 false false
                eq_refl eq_refl) as Hcall.
  cbv zeta in Hcall.
  pose proof Hcall as Hrule.
  apply (dtmin_floor_rule R R_scalar R_ordered R_adjacent R_power one_lane
           unit (floor_controller false) (1 / 100)%R) in Hrule.
  - destruct Hrule as (_ & Hat & Hres & _).
    do 6 eexists. split; [exact Hcall|]. split; [exact Hat | exact Hres].
  - reflexivity.
  - rewrite exact_scaled_error_zero by reflexivity.
    rewrite exact_factor_zero_error by reflexivity.
    apply exact_lt_iff. cbn. lra.
Defined.

(** C10. With [dtmin] unset, [init] and [adapt_step_size] return a state
    whose [at_dtmin] is [False], and [adapt_step_size] does not look at the
    incoming [at_dtmin]: the call returns the same with any other incoming
    flag.  The step is kept exactly when the scaled error is below 1 and, in
    lockstep-batched mode, every other lane keeps its step as well. *)
Theorem at_dtmin_unset :
  forall (T : Type) (S : Scalar T) (Adj : Adjacent T) (P : Power T)
    (B : Batch T) (A : Type) (self : IController T),
    dtmin self = None ->
    (forall (t0 : T) (y0 : list T) (dt0 : option T) (args : A)
        (solver : AbstractSolver T A) (t1 : T)
        (jump_next_step at_dtmin : bool),
        init self t0 y0 dt0 args solver
        = OK (t1, (jump_next_step, at_dtmin)) ->
        at_dtmin = false) /\
    (forall (t0 t1 : T) (y0 y1_candidate : list T) (args : A)
        (y_error : list T) (solver_order : Z) (made_jump at_dtmin : bool)
        (keep_step : bool) (next_t0 next_t1 : T) (made_jump' : bool)
        (next_made_jump at_dtmin' : bool) (result : RESULTS),
        adapt_step_size self t0 t1 y0 y1_candidate args (Some y_error)
          solver_order (made_jump, at_dtmin)
        = OK (keep_step, next_t0, next_t1, made_jump',
              (next_made_jump, at_dtmin'), result) ->
        let scaled_error :=
          _scale_error_estimate y_error y0 y1_candidate (unravel_y self)
            (rtol self) (atol self) (norm self) in
        at_dtmin' = false /\
        (forall other_flag : bool,
            adapt_step_size self t0 t1 y0 y1_candidate args (Some y_error)
              solver_order (made_jump, other_flag)
            = OK (keep_step, next_t0, next_t1, made_jump',
                  (next_made_jump, at_dtmin'), result)) /\
        (unvmap_dt self = false ->
         keep_step = (scaled_error <? of_Z 1)%sc) /\
        (unvmap_dt self = true ->
         keep_step
         = (scaled_error <? of_Z 1)%sc && jnp_all other_keep_step)).
Proof.
  intros T S Adj P B A self Hd. split.
  - intros t0 y0 dt0 args solver t1 j a. unfold init.
    destruct (match dt0 with None => _ | Some d => _ end) as [d|x];
      simpl; [|discriminate].
    rewrite Hd.
    destruct (_clip_step_ts _ _ _) as [u|x]; simpl; [|discriminate].
    destruct (_clip_jump_ts _ _ _) as [[v j']|x]; simpl; [|discriminate].
    intros [= _ _ <-]. reflexivity.
  - intros t0 t1 y0 y1 args e k mj ad keep nt0 nt1 mj' nmj ad' r Hcall.
    cbv zeta.
    assert (Hflag : forall other_flag : bool,
               adapt_keep_step self (adapt_scaled_error self e y0 y1)
                 other_flag
               = adapt_keep_step self (adapt_scaled_error self e y0 y1) ad).
    { intros other_flag. rewrite !adapt_keep_step_eq, Hd. reflexivity. }
    split; [|split].
    + apply adapt_step_size_returns in Hcall.
      destruct Hcall as (_ & _ & _ & Hfloor & _).
      unfold adapt_floor_dt in Hfloor. rewrite Hd in Hfloor.
      injection Hfloor as _ <-. reflexivity.
    + intros other_flag.
      rewrite adapt_step_size_stages in Hcall |- *. cbv zeta in Hcall |- *.
      rewrite Hflag. exact Hcall.
    + apply adapt_step_size_returns in Hcall.
      destruct Hcall as (Hkeep & _).
      rewrite adapt_keep_step_eq, Hd in Hkeep. cbv zeta in Hkeep.
      unfold adapt_scaled_error in Hkeep.
      split; intros Hu; rewrite Hu in Hkeep; exact Hkeep.
Qed.

Lemma at_dtmin_unset_witness :
  dtmin (T:=R) default_controller = None /\
  exists keep_step next_t0 next_t1 next_made_jump at_dtmin' result,
    adapt_step_size default_controller 0%R 1%R [1%R] [1%R] tt
      (Some [0%R]) 4 (false, true)
    = OK (keep_step, next_t0, next_t1, false,
          (next_made_jump, at_dtmin'), result) /\
    at_dtmin' = false /\
    adapt_step_size default_controller 0%R 1%R [1%R] [1%R] tt
      (Some [0%R]) 4 (false, false)
    = OK (keep_step, next_t0, next_t1, false,
          (next_made_jump, at_dtmin'), result).
Proof.
  split; [reflexivity|].
  pose proof (adapt_step_size_no_grids default_controller 0%R 1%R
                [1%R] [1%R] tt [0%R] 4 false true eq_refl eq_refl) as Hcall.
  cbv zeta in Hcall.
  pose proof Hcall as Hrule.
  apply (proj2 (at_dtmin_unset R R_scalar R_adjacent R_power one_lane unit
                  default_controller eq_refl)) in Hrule.
  cbv zeta in Hrule. destruct Hrule as (Hflag & Hsame & _).
  do 6 eexists. split; [exact Hcall|].
  split; [exact Hflag | exact (Hsame false)].
Defined.

(** ** The next interval *)

(** C7. For floating point times, [_t1] is [nextafter t1] when the incoming
    state has [made_jump] set and [t1] otherwise; [next_t0] is [_t1] when the
    step is kept and [t0] when it is rejected; and [next_t1] is what the two
    grid clippers make of [next_t0 + dt], which is [next_t0 + dt] itself when
    no grid is configured. *)
Theorem next_t0_rule :
  forall (T : Type) (S : Scalar T) (Adj : Adjacent T) (P : Power T)
    (B : Batch T) (A : Type) (self : IController T) (t0 t1 : T)
    (y0 y1_candidate : list T) (args : A) (y_error : list T)
    (solver_order : Z) (made_jump at_dtmin : bool)
    (keep_step : bool) (next_t0 next_t1 : T) (made_jump' : bool)
    (next_made_jump at_dtmin' : bool) (result : RESULTS),
    inexact = true ->
    adapt_step_size self t0 t1 y0 y1_candidate args (Some y_error)
      solver_order (made_jump, at_dtmin)
    = OK (keep_step, next_t0, next_t1, made_jump',
          (next_made_jump, at_dtmin'), result) ->
    let _t1 := if made_jump then nextafter t1 else t1 in
    let scaled_error := adapt_scaled_error self y_error y0 y1_candidate in
    let factor := adapt_factor self scaled_error solver_order keep_step in
    let dt :=
      snd (adapt_floor_dt self (adapt_proposed_dt self (t1 - t0)%sc factor)) in
    next_t0 = (if keep_step then _t1 else t0) /\
    (exists u,
        _clip_step_ts self next_t0 (next_t0 + dt)%sc = OK u /\
        _clip_jump_ts self next_t0 u = OK (next_t1, next_made_jump)) /\
    (step_ts self = None -> jump_ts self = None ->
     next_t1 = (next_t0 + dt)%sc).
Proof.
  intros T S Adj P B A self t0 t1 y0 y1 args e k mj ad keep nt0 nt1 mj'
    nmj ad' r Hfloat Hcall.
  apply adapt_step_size_returns in Hcall.
  destruct Hcall as (_ & Hnt0 & _ & _ & u & Hs & Hj).
  cbv zeta. split; [|split].
  - rewrite Hnt0. unfold adapt_next_t0, jnp_where. rewrite Hfloat.
    reflexivity.
  - exists u. split; assumption.
  - intros Es Ej.
    rewrite (clip_step_ts_none _ _ _ Es) in Hs. injection Hs as <-.
    rewrite (clip_jump_ts_none _ _ _ Ej) in Hj. injection Hj as <- _.
    reflexivity.
Qed.

Lemma next_t0_rule_witness :
  exists keep_step next_t0 next_t1 state' result,
    adapt_step_size (floor_controller true) 0%R 1%R [1%R] [1%R] tt
      (Some [0%R]) 4 (true, false)
    = OK (keep_step, next_t0, next_t1, true, state', result) /\
    next_t0 = (if keep_step then nextafter 1%R else 0%R).
Proof.
  pose proof (adapt_step_size_no_grids (floor_controller true) 0%R 1%R
                [1%R] [1%R] tt [0%R] 4 true false eq_refl eq_refl) as Hcall.
  cbv zeta in Hcall.
  pose proof Hcall as Hrule. apply next_t0_rule in Hrule; [|reflexivity].
  do 5 eexists. split; [exact Hcall|].
  exact (proj1 Hrule).
Defined.

(** ** Errors *)

(** C6, as amended.  A call without an error estimate raises [ValueError].
    A call with one fails only where a grid clipper raises, on the interval
    the step update has produced: accepting, rejecting and updating the step
    size raise nothing.  With neither [step_ts] nor [jump_ts] configured the
    call fails if and only if the error estimate is absent. *)
Theorem adapt_step_size_errors :
  forall (T : Type) (S : Scalar T) (Adj : Adjacent T) (P : Power T)
    (B : Batch T) (A : Type) (self : IController T) (t0 t1 : T)
    (y0 y1_candidate : list T) (args : A) (solver_order : Z)
    (made_jump at_dtmin : bool),
    (exists msg,
        adapt_step_size self t0 t1 y0 y1_candidate args None solver_order
          (made_jump, at_dtmin)
        = Raise (ValueError msg)) /\
    (forall (y_error : list T) (x : exn),
        adapt_step_size self t0 t1 y0 y1_candidate args (Some y_error)
          solver_order (made_jump, at_dtmin)
        = Raise x ->
        let scaled_error := adapt_scaled_error self y_error y0 y1_candidate in
        let keep_step := adapt_keep_step self scaled_error at_dtmin in
        let factor := adapt_factor self scaled_error solver_order keep_step in
        let dt :=
          snd (adapt_floor_dt self
                 (adapt_proposed_dt self (t1 - t0)%sc factor)) in
        let next_t0 := adapt_next_t0 keep_step made_jump t0 t1 in
        _clip_step_ts self next_t0 (next_t0 + dt)%sc = Raise x \/
        exists u,
          _clip_step_ts self next_t0 (next_t0 + dt)%sc = OK u /\
          _clip_jump_ts self next_t0 u = Raise x) /\
    (step_ts self = None -> jump_ts self = None ->
     forall y_error : option (list T),
       raises (adapt_step_size self t0 t1 y0 y1_candidate args y_error
                 solver_order (made_jump, at_dtmin)) = true
       <-> y_error = None).
Proof.
  intros T S Adj P B A self t0 t1 y0 y1 args k mj ad. split; [|split].
  - eexists. reflexivity.
  - intros e x. rewrite adapt_step_size_stages. cbv zeta.
    destruct (_clip_step_ts _ _ _) as [u|x'] eqn:Es; simpl.
    + destruct (_clip_jump_ts _ _ _) as [[v j]|x'] eqn:Ej; simpl;
        [discriminate|].
      intros [= ->]. right. exists u. split; [reflexivity | exact Ej].
    + intros [= ->]. left. reflexivity.
  - intros Es Ej [e|].
    + rewrite (adapt_step_size_no_grids _ _ _ _ _ _ _ _ _ _ Es Ej).
      cbv zeta. simpl. split; discriminate.
    + simpl. split; reflexivity.
Qed.

Lemma adapt_step_size_errors_witness :
  raises (adapt_step_size default_controller 0%R 1%R [1%R] [1%R] tt
            (Some [0%R]) 4 (false, false)) = false /\
  raises (adapt_step_size default_controller 0%R 1%R [1%R] [1%R] tt
            None 4 (false, false)) = true.
Proof.
  pose proof (proj2 (proj2 (adapt_step_size_errors R R_scalar R_adjacent
                              R_power one_lane unit default_controller
                              0%R 1%R
                              [1%R] [1%R] tt 4 false false))
                eq_refl eq_refl) as Hiff.
  split.
  - destruct (raises _) eqn:E; [|reflexivity].
    apply Hiff in E. discriminate E.
  - apply Hiff. reflexivity.
Defined.

(** With [y_error] present the call still fails when [step_ts] meets
    lockstep batching. *)
Lemma adapt_step_size_raises_with_error_estimate :
  Some [0%R] <> None /\
  raises (adapt_step_size lockstep_step_grid 0%R 1%R [1%R] [1%R] tt
            (Some [0%R]) 4 (false, false)) = true.
Proof.
  split; [discriminate|].
  rewrite adapt_step_size_stages. reflexivity.
Qed.

(** ** The initial step *)

Section InitialStep.

Context {T : Type} `{Scalar T} `{Power T} {A : Type}.

Lemma select_initial_step_eq (t0 : T) (y0 : list T) (args : A)
    (solver : AbstractSolver T A) (rtol atol : T)
    (unravel_y : list T -> PyTree T) (norm : PyTree T -> T) :
  order solver <> 0%Z ->
  let f0 := func_for_init solver t0 y0 args in
  let scale := map (fun y => (atol + jnp_abs y * rtol)%sc) y0 in
  let d0 := norm (unravel_y (map2 t_div y0 scale)) in
  let d1 := norm (unravel_y (map2 t_div f0 scale)) in
  let h0 := hnw_h0 d0 d1 in
  let y1 := map2 t_add y0 (map (fun f => (h0 * f)%sc) f0) in
  let f1 := func_for_init solver (t0 + h0)%sc y1 args in
  let d2 :=
    (norm (unravel_y (map2 t_div (map2 t_sub f1 f0) scale)) / h0)%sc in
  let h1 := hnw_h1 d1 d2 h0 (order solver) in
  _select_initial_step t0 y0 args solver rtol atol unravel_y norm
  = OK (jnp_minimum (of_Z 100 * h0)%sc h1).
Proof.
  intros Ho. cbv zeta. unfold _select_initial_step, py_one_over.
  apply Z.eqb_neq in Ho. rewrite Ho. unfold hnw_h1, hnw_h0, jnp_where.
  cbn [bind]. destruct (_ || _); reflexivity.
Qed.

End InitialStep.

Section ExactInitialStep.

Open Scope R_scope.

Lemma exact_hnw_h0_pos (d0 d1 : R) : 0 < hnw_h0 d0 d1.
Proof.
  unfold hnw_h0.
  destruct (d0 <? lit 1 (-5))%sc eqn:E0; cbn [orb].
  - cbn. lra.
  - destruct (d1 <? lit 1 (-5))%sc eqn:E1.
    + cbn. lra.
    + assert (H0 : ~ d0 < 1 / 100000).
      { intros Hlt. apply exact_lt_iff in Hlt. cbn in E0, Hlt. congruence. }
      assert (H1 : ~ d1 < 1 / 100000).
      { intros Hlt. apply exact_lt_iff in Hlt. cbn in E1, Hlt. congruence. }
      assert (Hq : 0 < d0 / d1) by (apply Rdiv_lt_0_compat; lra).
      cbn. lra.
Qed.

Lemma exact_hnw_h1_pos (d1 d2 h0 : R) (order : Z) : 0 < hnw_h1 d1 d2 h0 order.
Proof.
  unfold hnw_h1. destruct (_ || _).
  - change (jnp_maximum ?a ?b) with (Rmax a b).
    eapply Rlt_le_trans; [|apply Rmax_l]. cbn. lra.
  - change (@t_pow R R_power) with Rpower. unfold Rpower. apply exp_pos.
Qed.

Lemma exact_minimum_pos (a b : R) : 0 < a -> 0 < b -> 0 < jnp_minimum a b.
Proof.
  intros Ha Hb. change (jnp_minimum a b) with (Rmin a b).
  apply Rmin_glb_lt; assumption.
Qed.

End ExactInitialStep.

(** C9. For a solver of non-zero order the selector returns
    [min (100 * h0, h1)], with [h0] and [h1] as the heuristic of Hairer,
    Norsett and Wanner defines them from the norms [d0], [d1] and [d2]; in
    exact arithmetic that value is strictly positive.  [init] without [dt0]
    is [init] with the step the selector returns. *)
Theorem initial_step_rule :
  (forall (T : Type) (S : Scalar T) (P : Power T) (A : Type)
      (t0 : T) (y0 : list T) (args : A) (solver : AbstractSolver T A)
      (rtol atol : T) (unravel_y : list T -> PyTree T)
      (norm : PyTree T -> T),
      order solver <> 0%Z ->
      let f0 := func_for_init solver t0 y0 args in
      let scale := map (fun y => (atol + jnp_abs y * rtol)%sc) y0 in
      let d0 := norm (unravel_y (map2 t_div y0 scale)) in
      let d1 := norm (unravel_y (map2 t_div f0 scale)) in
      let h0 := hnw_h0 d0 d1 in
      let y1 := map2 t_add y0 (map (fun f => (h0 * f)%sc) f0) in
      let f1 := func_for_init solver (t0 + h0)%sc y1 args in
      let d2 :=
        (norm (unravel_y (map2 t_div (map2 t_sub f1 f0) scale)) / h0)%sc in
      let h1 := hnw_h1 d1 d2 h0 (order solver) in
      _select_initial_step t0 y0 args solver rtol atol unravel_y norm
      = OK (jnp_minimum (of_Z 100 * h0)%sc h1)) /\
  (forall (A : Type) (t0 : R) (y0 : list R) (args : A)
      (solver : AbstractSolver R A) (rtol atol : R)
      (unravel_y : list R -> PyTree R) (norm : PyTree R -> R),
      order solver <> 0%Z ->
      exists h : R,
        _select_initial_step t0 y0 args solver rtol atol unravel_y norm
        = OK h /\ (0 < h)%R) /\
  (forall (T : Type) (S : Scalar T) (Adj : Adjacent T) (P : Power T)
      (B : Batch T) (A : Type) (self : IController T) (t0 : T) (y0 : list T)
      (args : A) (solver : AbstractSolver T A),
      init self t0 y0 None args solver
      = (dt0 <- _select_initial_step t0 y0 args solver (rtol self)
                  (atol self) (unravel_y self) (norm self) ;;
         init self t0 y0 (Some dt0) args solver)).
Proof.
  split; [|split].
  - intros T S P A t0 y0 args solver rtol atol unravel_y norm Ho.
    apply select_initial_step_eq. exact Ho.
  - intros A t0 y0 args solver rtol atol unravel_y norm Ho.
    eexists. split.
    + apply select_initial_step_eq. exact Ho.
    + apply exact_minimum_pos.
      * rewrite exact_of_Z.
        change (t_mul ?a ?b) with (a * b)%R.
        pose proof (exact_hnw_h0_pos
                      (norm (unravel_y (map2 t_div y0
                         (map (fun y => (atol + jnp_abs y * rtol)%sc) y0))))
                      (norm (unravel_y (map2 t_div
                         (func_for_init solver t0 y0 args)
                         (map (fun y => (atol + jnp_abs y * rtol)%sc) y0)))))
          as Hh0.
        lra.
      * apply exact_hnw_h1_pos.
  - intros T S Adj P B A self t0 y0 args solver. unfold init.
    destruct (_select_initial_step _ _ _ _ _ _ _ _); reflexivity.
Qed.

Lemma initial_step_rule_witness :
  exists h : R,
    _select_initial_step 0%R [1%R] tt decay_solver (lit 1 (-3)) (lit 1 (-6))
      Leaf _rms_norm = OK h /\ (0 < h)%R.
Proof.
  apply (proj1 (proj2 initial_step_rule)). discriminate.
Defined.

(** * Further properties *)

(** ** The step clipper *)

Section SearchFacts.

Context {T : Type} `{Scalar T}.

(** What the step clipper returns when it clamps. *)
Lemma clip_step_ts_cases (self : IController T) (t0 t1 u : T) :
  _clip_step_ts self t0 t1 = OK u ->
  u = t1 \/
  exists s,
    step_ts self = Some s /\ In u s /\
    (t0 <=? u)%sc = true /\ (t1 <=? u)%sc = false.
Proof.
  unfold _clip_step_ts. destruct (step_ts self) as [s|];
    [|intros [= <-]; left; reflexivity].
  destruct (unvmap_dt self); [discriminate|].
  set (i0 := jnp_searchsorted s t0).
  destruct (getitem s _) as [c|e] eqn:Ec; cbn [bind]; [|discriminate].
  intros [= <-]. unfold jnp_where.
  destruct (i0 <? jnp_searchsorted s t1)%Z eqn:E; [|left; reflexivity].
  right. exists s. apply Z.ltb_lt in E.
  pose proof (searchsorted_nonneg s t0) as Hi0. fold i0 in Hi0.
  pose proof (searchsorted_nonneg s t1) as Hi1.
  destruct (nth_error s (Z.to_nat i0)) as [c'|] eqn:En;
    [|apply nth_error_None in En; lia].
  assert (Hc : c = c').
  { unfold getitem in Ec.
    destruct (Z.min i0 _ <? 0)%Z eqn:Hneg; [apply Z.ltb_lt in Hneg; lia|].
    replace (Z.to_nat (Z.max 0 (Z.min (Z.min i0 (Z.of_nat (List.length s) - 1))
                                   (Z.of_nat (List.length s) - 1))))
      with (Z.to_nat i0) in Ec by lia.
    rewrite En in Ec. injection Ec as <-. reflexivity. }
  subst c'. split; [reflexivity|]. split; [|split].
  - eapply nth_error_In. exact En.
  - apply (searchsorted_at s t0 c). exact En.
  - apply (searchsorted_before s (Z.to_nat i0) t1 c En). lia.
Qed.

(** A non-empty grid can always be indexed; without lockstep batching the
    step clipper then returns. *)
Lemma clip_step_ts_returns (self : IController T) (t0 t1 : T) :
  unvmap_dt self = false ->
  (forall s, step_ts self = Some s -> s <> []) ->
  exists u, _clip_step_ts self t0 t1 = OK u.
Proof.
  intros Eu Hs. unfold _clip_step_ts.
  destruct (step_ts self) as [s|]; [|eexists; reflexivity].
  rewrite Eu.
  destruct (getitem_nonempty s
              (Z.min (jnp_searchsorted s t0) (Z.of_nat (List.length s) - 1))
              (Hs s eq_refl)) as (c & Ec & _).
  rewrite Ec. cbn [bind]. eexists. reflexivity.
Qed.

End SearchFacts.



Section ReturningCalls.

Context {T : Type} `{Scalar T} `{Adjacent T} `{Power T} {lanes : Batch T}
  {A : Type}.

(** The jump clipper returns when its grids can be indexed. *)
Lemma clip_jump_ts_returns (self : IController T) (t0 t1 : T) :
  unvmap_dt self = false -> inexact = true ->
  (forall js, jump_ts self = Some js ->
              js <> [] /\ exists s, step_ts self = Some s) ->
  exists r, _clip_jump_ts self t0 t1 = OK r.
Proof.
  intros Eu Ei Hj. unfold _clip_jump_ts.
  destruct (jump_ts self) as [js|]; [|eexists; reflexivity].
  rewrite Eu, Ei. cbn [negb].
  destruct (Hj js eq_refl) as (Hne & s & Es). rewrite Es.
  destruct (getitem_nonempty js
              (Z.min (jnp_searchsorted s t0) (Z.of_nat (List.length s) - 1))
              Hne) as (c & Ec & _).
  rewrite Ec. cbn [bind]. eexists. reflexivity.
Qed.

(** With a step size given and grids that can be indexed, [init] returns. *)
Lemma init_returns (self : IController T) (t0 : T) (y0 : list T) (dt0 : T)
    (args : A) (solver : AbstractSolver T A) :
  unvmap_dt self = false -> inexact = true ->
  (forall s, step_ts self = Some s -> s <> []) ->
  (forall js, jump_ts self = Some js ->
              js <> [] /\ exists s, step_ts self = Some s) ->
  exists r, init self t0 y0 (Some dt0) args solver = OK r.
Proof.
  intros Eu Ei Hs Hj. unfold init. cbn [bind]. rewrite Eu.
  destruct (match dtmin self with None => _ | Some d => _ end) as [a dt].
  destruct (clip_step_ts_returns self t0 (t0 + dt)%sc Eu Hs) as [u Es].
  rewrite Es. cbn [bind].
  destruct (clip_jump_ts_returns self t0 u Eu Ei Hj) as [[v j] Ej].
  rewrite Ej. cbn [bind]. eexists. reflexivity.
Qed.

(** With an error estimate and grids that can be indexed,
    [adapt_step_size] returns. *)
Lemma adapt_step_size_total (self : IController T) (t0 t1 : T)
    (y0 y1_candidate : list T) (args : A) (y_error : list T)
    (solver_order : Z) (state : _ControllerState) :
  unvmap_dt self = false -> inexact = true ->
  (forall s, step_ts self = Some s -> s <> []) ->
  (forall js, jump_ts self = Some js ->
              js <> [] /\ exists s, step_ts self = Some s) ->
  exists r,
    adapt_step_size self t0 t1 y0 y1_candidate args (Some y_error)
      solver_order state = OK r.
Proof.
  intros Eu Ei Hs Hj. destruct state as [mj ad].
  rewrite adapt_step_size_stages. cbv zeta.
  match goal with
  | |- context [_clip_step_ts self ?a ?b] =>
      destruct (clip_step_ts_returns self a b Eu Hs) as [u Es]; rewrite Es
  end.
  cbn [bind].
  match goal with
  | |- context [_clip_jump_ts self ?a ?b] =>
      destruct (clip_jump_ts_returns self a b Eu Ei Hj) as [[v j] Ej];
        rewrite Ej
  end.
  cbn [bind]. eexists. reflexivity.
Qed.

End ReturningCalls.

Section ExactGridCalls.

Open Scope R_scope.

Lemma grid_125_sorted : StronglySorted Rle [1; 2; 5].
Proof.
  repeat constructor; lra.
Qed.

(** The end of the interval [init] returns: the step clipper's image of
    the proposed end. *)
Lemma init_clipped {lanes : Batch R} (A : Type) (self : IController R)
    (t0 : R) (y0 : list R)
    (dt0 : option R) (args : A) (solver : AbstractSolver R A)
    (t1 : R) (state : _ControllerState) :
  step_ts_ascending self ->
  init self t0 y0 dt0 args solver = OK (t1, state) ->
  exists proposed, _clip_step_ts self t0 proposed = OK t1.
Proof.
  intros Hasc. unfold init.
  destruct (match dt0 with None => _ | Some d => _ end) as [d|x];
    cbn [bind]; [|discriminate].
  destruct (match dtmin self with None => _ | Some d' => _ end) as [a dt].
  destruct (_clip_step_ts _ _ _) as [u|x] eqn:Es; cbn [bind]; [|discriminate].
  destruct (_clip_jump_ts _ _ _) as [[v j]|x] eqn:Ej; cbn [bind];
    [|discriminate].
  intros [= <- _].
  destruct (clip_jump_ts_after_clip_step_ts _ _ _ _ _ _ Hasc Es Ej)
    as [-> _].
  eexists. exact Es.
Qed.

End ExactGridCalls.

(** X2. On an ascending grid of mandatory times, neither [init] nor
    [adapt_step_size] returns an interval that ends beyond a mandatory time
    lying after its start: the controller never steps over a required
    time (exact arithmetic). *)
Theorem mandatory_times_never_passed :
  forall (B : Batch R) (A : Type) (self : IController R) (s : list R),
    step_ts self = Some s -> StronglySorted Rle s ->
    (forall (t0 : R) (y0 : list R) (dt0 : option R) (args : A)
        (solver : AbstractSolver R A) (t1 : R) (state : _ControllerState)
        (x : R),
        init self t0 y0 dt0 args solver = OK (t1, state) ->
        In x s -> (t0 < x)%R -> (t1 <= x)%R) /\
    (forall (t0 t1 : R) (y0 y1_candidate : list R) (args : A)
        (y_error : list R) (solver_order : Z) (made_jump at_dtmin : bool)
        (keep_step : bool) (next_t0 next_t1 : R) (made_jump' : bool)
        (next_made_jump at_dtmin' : bool) (result : RESULTS) (x : R),
        adapt_step_size self t0 t1 y0 y1_candidate args (Some y_error)
          solver_order (made_jump, at_dtmin)
        = OK (keep_step, next_t0, next_t1, made_jump',
              (next_made_jump, at_dtmin'), result) ->
        In x s -> (next_t0 < x)%R -> (next_t1 <= x)%R).
Proof.
  intros B A self s Es Hs.
  pose proof (exact_step_ts_ascending_at self s Es Hs) as Hasc. split.
  - intros t0 y0 dt0 args solver t1 state x Hinit Hin Hx.
    destruct (init_clipped A self t0 y0 dt0 args solver t1 state Hasc Hinit)
      as [proposed Hclip].
    exact (exact_clip_step_ts_bound self s t0 proposed t1 x Es Hs Hclip Hin Hx).
  - intros t0 t1 y0 y1 args e k mj ad keep nt0 nt1 mj' nmj ad' r x
      Hcall Hin Hx.
    apply adapt_step_size_returns in Hcall.
    destruct Hcall as (_ & _ & _ & _ & u & Hstep & Hjump).
    destruct (clip_jump_ts_after_clip_step_ts
                _ _ _ _ _ _ Hasc Hstep Hjump) as [-> _].
    exact (exact_clip_step_ts_bound self s nt0 _ u x Es Hs Hstep Hin Hx).
Qed.

Lemma mandatory_times_never_passed_witness :
  exists (t1 : R) (state : _ControllerState),
    init step_grid_125_exact (1 / 2)%R [1%R] (Some (5 / 2)%R) tt decay_solver
    = OK (t1, state) /\ (t1 <= 1)%R.
Proof.
  destruct (@init_returns R R_scalar R_adjacent R_power one_lane unit
              step_grid_125_exact (1 / 2)%R [1%R] (5 / 2)%R tt
              decay_solver eq_refl eq_refl
              ltac:(intros s [= <-]; discriminate)
              ltac:(intros js Hjs; discriminate Hjs)) as [[t1 state] Hinit].
  exists t1, state. split; [exact Hinit|].
  apply (proj1 (mandatory_times_never_passed one_lane unit
                  step_grid_125_exact [1; 2; 5]%R eq_refl grid_125_sorted)
           (1 / 2)%R [1%R] (Some (5 / 2)%R) tt decay_solver t1 state 1%R Hinit).
  - left. reflexivity.
  - lra.
Defined.

(** X3. On an ascending grid of mandatory times, an interval that starts on
    a mandatory time is returned with length zero: [init] from a start time
    of the grid returns [t1 = t0], and after a kept step that ends on a
    mandatory time [adapt_step_size] returns [next_t1 = next_t0 = t1], for
    every positive step size (exact arithmetic). *)
Theorem interval_from_mandatory_time_is_empty :
  forall (B : Batch R) (A : Type) (self : IController R) (s : list R),
    step_ts self = Some s -> unvmap_dt self = false ->
    StronglySorted Rle s ->
    (forall (t0 : R) (y0 : list R) (dt0 : R) (args : A)
        (solver : AbstractSolver R A) (t1 : R) (state : _ControllerState),
        init self t0 y0 (Some dt0) args solver = OK (t1, state) ->
        In t0 s -> (0 < dt0)%R ->
        (forall M, dtmax self = Some M -> (0 < M)%R) ->
        t1 = t0) /\
    (forall (t0 t1 : R) (y0 y1_candidate : list R) (args : A)
        (y_error : list R) (solver_order : Z) (at_dtmin : bool)
        (next_t0 next_t1 : R) (made_jump' : bool)
        (next_made_jump at_dtmin' : bool) (result : RESULTS),
        adapt_step_size self t0 t1 y0 y1_candidate args (Some y_error)
          solver_order (false, at_dtmin)
        = OK (true, next_t0, next_t1, made_jump',
              (next_made_jump, at_dtmin'), result) ->
        let scaled_error := adapt_scaled_error self y_error y0 y1_candidate in
        let factor := adapt_factor self scaled_error solver_order true in
        let dt :=
          snd (adapt_floor_dt self
                 (adapt_proposed_dt self (t1 - t0)%sc factor)) in
        In t1 s -> (0 < dt)%R ->
        next_t0 = t1 /\ next_t1 = t1).
Proof.
  intros B A self s Es Eu Hs.
  pose proof (exact_step_ts_ascending_at self s Es Hs) as Hasc. split.
  - intros t0 y0 dt0 args solver t1 state Hinit Hin Hdt HM.
    unfold init in Hinit. cbn [bind] in Hinit. rewrite Eu in Hinit.
    set (dt := match dtmax self with
               | Some dtmax => jnp_minimum dt0 dtmax
               | None => dt0
               end) in Hinit.
    assert (Hpos : (0 < dt)%R).
    { subst dt. destruct (dtmax self) as [M|]; [|exact Hdt].
      change (jnp_minimum dt0 M) with (Rmin dt0 M).
      apply Rmin_glb_lt; [exact Hdt | apply HM; reflexivity]. }
    clearbody dt.
    assert (Hstall : forall d : R, (0 < d)%R ->
                     _clip_step_ts self t0 (t0 + d)%sc = OK t0).
    { intros d Hd. apply (exact_clip_step_ts_stalls self s); try assumption.
      change (t0 + d)%sc with (t0 + d)%R. lra. }
    destruct (dtmin self) as [m|].
    + rewrite Hstall in Hinit.
      * cbn [bind] in Hinit.
        destruct (_clip_jump_ts self t0 t0) as [[v j]|x] eqn:Ej;
          cbn [bind] in Hinit; [|discriminate].
        injection Hinit as <- _.
        destruct (clip_jump_ts_after_clip_step_ts
                    self t0 (t0 + 1)%R t0 v j Hasc
                    (Hstall 1%R ltac:(lra)) Ej) as [-> _].
        reflexivity.
      * change (jnp_maximum dt m) with (Rmax dt m).
        eapply Rlt_le_trans; [exact Hpos | apply Rmax_l].
    + rewrite (Hstall dt Hpos) in Hinit. cbn [bind] in Hinit.
      destruct (_clip_jump_ts self t0 t0) as [[v j]|x] eqn:Ej;
        cbn [bind] in Hinit; [|discriminate].
      injection Hinit as <- _.
      destruct (clip_jump_ts_after_clip_step_ts
                  self t0 (t0 + dt)%sc t0 v j Hasc (Hstall dt Hpos) Ej)
        as [-> _].
      reflexivity.
  - intros t0 t1 y0 y1 args e k ad nt0 nt1 mj' nmj ad' r Hcall.
    apply adapt_step_size_returns in Hcall. cbv zeta in Hcall.
    destruct Hcall as (_ & Hnt0 & _ & _ & u & Hstep & Hjump).
    cbv zeta. intros Hin Hdt.
    assert (E0 : nt0 = t1) by (rewrite Hnt0; reflexivity).
    subst nt0. split; [reflexivity|].
    rewrite (exact_clip_step_ts_stalls self s t1) in Hstep;
      [ | assumption | assumption | assumption | assumption
        | change (t_add ?a ?b) with (a + b)%R; lra ].
    injection Hstep as <-.
    destruct (clip_jump_ts_after_clip_step_ts
                self t1 (t1 + 1)%R t1 nt1 nmj Hasc
                (exact_clip_step_ts_stalls self s t1 (t1 + 1)%R Es Eu Hs Hin
                   ltac:(lra)) Hjump) as [-> _].
    reflexivity.
Qed.

Lemma interval_from_mandatory_time_is_empty_witness :
  exists (t1 : R) (state : _ControllerState),
    init step_grid_125_exact 1%R [1%R] (Some 2%R) tt decay_solver
    = OK (t1, state) /\ t1 = 1%R.
Proof.
  destruct (@init_returns R R_scalar R_adjacent R_power one_lane unit
              step_grid_125_exact 1%R [1%R] 2%R tt
              decay_solver eq_refl eq_refl
              ltac:(intros s [= <-]; discriminate)
              ltac:(intros js Hjs; discriminate Hjs)) as [[t1 state] Hinit].
  exists t1, state. split; [exact Hinit|].
  apply (proj1 (interval_from_mandatory_time_is_empty one_lane unit
                  step_grid_125_exact [1; 2; 5]%R eq_refl eq_refl
                  grid_125_sorted)
           1%R [1%R] 2%R tt decay_solver t1 state Hinit).
  - left. reflexivity.
  - lra.
  - intros M HM. discriminate HM.
Defined.

(** ** The jump clipper *)

(** X4. With ascending mandatory times (or none), every call of [init]
    and of [adapt_step_size] that returns, returns a lowered jump flag and
    the same result as the controller without [jump_ts]: the discontinuity
    times have no effect on the intervals the controller returns.  This
    holds for every scalar type, binary64 included. *)
Theorem jump_ts_has_no_effect :
  forall (T : Type) (S : Scalar T) (Adj : Adjacent T)
    (P : Power T) (B : Batch T) (A : Type) (self : IController T),
    step_ts_ascending self ->
    let without := with_grids self (step_ts self) None in
    (forall (t0 : T) (y0 : list T) (dt0 : option T) (args : A)
        (solver : AbstractSolver T A) (t1 : T)
        (jump_next_step at_dtmin : bool),
        init self t0 y0 dt0 args solver
        = OK (t1, (jump_next_step, at_dtmin)) ->
        jump_next_step = false /\
        init without t0 y0 dt0 args solver = OK (t1, (false, at_dtmin))) /\
    (forall (t0 t1 : T) (y0 y1_candidate : list T) (args : A)
        (y_error : list T) (solver_order : Z) (state : _ControllerState)
        (keep_step : bool) (next_t0 next_t1 : T) (made_jump' : bool)
        (next_made_jump at_dtmin' : bool) (result : RESULTS),
        adapt_step_size self t0 t1 y0 y1_candidate args (Some y_error)
          solver_order state
        = OK (keep_step, next_t0, next_t1, made_jump',
              (next_made_jump, at_dtmin'), result) ->
        next_made_jump = false /\
        adapt_step_size without t0 t1 y0 y1_candidate args (Some y_error)
          solver_order state
        = OK (keep_step, next_t0, next_t1, made_jump',
              (false, at_dtmin'), result)).
Proof.
  intros T S Adj P B A self Hasc without.
  assert (Hclip : forall a b, _clip_step_ts without a b = _clip_step_ts self a b)
    by reflexivity.
  assert (Hjump : forall a b, _clip_jump_ts without a b = OK (b, false))
    by reflexivity.
  split.
  - intros t0 y0 dt0 args solver t1 j a. unfold init.
    change (rtol without) with (rtol self).
    change (atol without) with (atol self).
    change (unravel_y without) with (unravel_y self).
    change (norm without) with (norm self).
    change (unvmap_dt without) with (unvmap_dt self).
    change (dtmax without) with (dtmax self).
    change (dtmin without) with (dtmin self).
    destruct (match dt0 with None => _ | Some d => _ end) as [d|x];
      cbn [bind]; [|discriminate].
    destruct (match dtmin self with None => _ | Some d' => _ end) as [a' dt].
    rewrite Hclip.
    destruct (_clip_step_ts self _ _) as [u|x] eqn:Es; cbn [bind];
      [|discriminate].
    rewrite Hjump. cbn [bind].
    destruct (_clip_jump_ts self _ _) as [[v j']|x] eqn:Ej; cbn [bind];
      [|discriminate].
    intros [= <- <- <-].
    destruct (clip_jump_ts_after_clip_step_ts _ _ _ _ _ _ Hasc Es Ej)
      as [-> ->].
    split; reflexivity.
  - intros t0 t1 y0 y1 args e k [mj ad] keep nt0 nt1 mj' nmj ad' r.
    rewrite !adapt_step_size_stages. cbv zeta.
    change (adapt_scaled_error without e y0 y1)
      with (adapt_scaled_error self e y0 y1).
    set (se := adapt_scaled_error self e y0 y1).
    change (adapt_keep_step without se ad) with (adapt_keep_step self se ad).
    set (ks := adapt_keep_step self se ad).
    change (adapt_factor without se k ks) with (adapt_factor self se k ks).
    set (f := adapt_factor self se k ks).
    change (adapt_proposed_dt without (t1 - t0)%sc f)
      with (adapt_proposed_dt self (t1 - t0)%sc f).
    set (p := adapt_proposed_dt self (t1 - t0)%sc f).
    change (adapt_floor_dt without p) with (adapt_floor_dt self p).
    rewrite Hclip.
    destruct (_clip_step_ts self _ _) as [u|x] eqn:Es; cbn [bind];
      [|discriminate].
    rewrite Hjump. cbn [bind].
    destruct (_clip_jump_ts self _ _) as [[v j']|x] eqn:Ej; cbn [bind];
      [|discriminate].
    intros [= <- <- <- <- <- <- <-].
    destruct (clip_jump_ts_after_clip_step_ts _ _ _ _ _ _ Hasc Es Ej)
      as [-> ->].
    split; reflexivity.
Qed.

Lemma jump_ts_has_no_effect_witness :
  exists (t1 : R) (jump_next_step at_dtmin : bool),
    init both_grids_exact 2%R [1%R] (Some 2%R) tt decay_solver
    = OK (t1, (jump_next_step, at_dtmin)) /\
    jump_next_step = false.
Proof.
  destruct (@init_returns R R_scalar R_adjacent R_power one_lane unit
              both_grids_exact 2%R [1%R] 2%R tt decay_solver eq_refl eq_refl
              ltac:(intros s [= <-]; discriminate)
              ltac:(intros js [= <-]; split;
                    [discriminate | eexists; reflexivity]))
    as [[t1 [j a]] Hinit].
  exists t1, j, a. split; [exact Hinit|].
  assert (Hasc : step_ts_ascending both_grids_exact).
  { intros s [= <-]. apply exact_ascending, grid_125_sorted. }
  exact (proj1 (proj1 (jump_ts_has_no_effect R R_scalar R_adjacent
                         R_power one_lane unit both_grids_exact Hasc)
                  2%R [1%R] (Some 2%R) tt decay_solver t1 j a Hinit)).
Defined.

(** ** Lockstep batching *)

(** X5. A controller with [unvmap_dt] set and a grid ([step_ts] or
    [jump_ts]) cannot be used: [init] with a step size and
    [adapt_step_size] with an error estimate raise [NotImplementedError]
    whatever their other arguments. *)
Theorem grids_refuse_lockstep :
  forall (T : Type) (S : Scalar T) (Adj : Adjacent T) (P : Power T)
    (B : Batch T) (A : Type) (self : IController T),
    unvmap_dt self = true ->
    step_ts self <> None \/ jump_ts self <> None ->
    (forall (t0 : T) (y0 : list T) (dt0 : T) (args : A)
        (solver : AbstractSolver T A),
        exists msg,
          init self t0 y0 (Some dt0) args solver
          = Raise (NotImplementedError msg)) /\
    (forall (t0 t1 : T) (y0 y1_candidate : list T) (args : A)
        (y_error : list T) (solver_order : Z) (state : _ControllerState),
        exists msg,
          adapt_step_size self t0 t1 y0 y1_candidate args (Some y_error)
            solver_order state
          = Raise (NotImplementedError msg)).
Proof.
  intros T S Adj P B A self Eu Hgrid.
  assert (Hclips : forall a b,
             exists msg,
               (u <- _clip_step_ts self a b ;;
                _clip_jump_ts self a u) = Raise (NotImplementedError msg)).
  { intros a b. unfold _clip_step_ts, _clip_jump_ts. rewrite Eu.
    destruct (step_ts self) as [s|].
    - eexists. reflexivity.
    - cbn [bind]. destruct (jump_ts self) as [js|].
      + eexists. reflexivity.
      + destruct Hgrid as [Hn|Hn]; congruence. }
  split.
  - intros t0 y0 dt0 args solver. unfold init. cbn [bind].
    destruct (match dtmin self with None => _ | Some d => _ end) as [a dt].
    match goal with
    | |- context [_clip_step_ts self ?a ?b] =>
        destruct (Hclips a b) as [msg Hmsg]
    end.
    exists msg. revert Hmsg.
    destruct (_clip_step_ts self _ _) as [u|x]; cbn [bind].
    + intros ->. reflexivity.
    + intros [= ->]. reflexivity.
  - intros t0 t1 y0 y1 args e k [mj ad].
    rewrite adapt_step_size_stages. cbv zeta.
    match goal with
    | |- context [_clip_step_ts self ?a ?b] =>
        destruct (Hclips a b) as [msg Hmsg]
    end.
    exists msg. revert Hmsg.
    destruct (_clip_step_ts self _ _) as [u|x]; cbn [bind].
    + intros ->. reflexivity.
    + intros [= ->]. reflexivity.
Qed.

Lemma grids_refuse_lockstep_witness :
  exists msg,
    adapt_step_size lockstep_step_grid 0%R 1%R [1%R] [1%R] tt (Some [0%R]) 4
      (false, false)
    = Raise (NotImplementedError msg).
Proof.
  assert (Hu : unvmap_dt lockstep_step_grid = true) by reflexivity.
  assert (Hg : step_ts lockstep_step_grid <> None \/
               jump_ts lockstep_step_grid <> None).
  { left. discriminate. }
  pose proof (grids_refuse_lockstep R R_scalar R_adjacent R_power one_lane
                unit lockstep_step_grid Hu Hg) as [_ Hadapt].
  apply Hadapt.
Defined.

(** ** Bounds on the step size *)

Section StepSizeFacts.

Context {T : Type} `{Scalar T} `{Adjacent T} `{Power T} {lanes : Batch T}
  {A : Type}.

(** [init] with a step size and without grids. *)
Lemma init_no_grids (self : IController T) (t0 : T) (y0 : list T) (dt0 : T)
    (args : A) (solver : AbstractSolver T A) :
  step_ts self = None -> jump_ts self = None ->
  init self t0 y0 (Some dt0) args solver
  = let dt0 :=
      if unvmap_dt self then jnp_min (unvmap other_dt0 dt0) else dt0 in
    let dt0 :=
      match dtmax self with
      | Some dtmax => jnp_minimum dt0 dtmax
      | None => dt0
      end in
    match dtmin self with
    | None => OK ((t0 + dt0)%sc, (false, false))
    | Some dtmin =>
      OK ((t0 + jnp_maximum dt0 dtmin)%sc, (false, (dt0 <=? dtmin)%sc))
    end.
Proof.
  intros Es Ej. unfold init. cbn [bind]. cbv zeta.
  destruct (dtmin self) as [m|];
    rewrite (clip_step_ts_none _ _ _ Es); cbn [bind];
    rewrite (clip_jump_ts_none _ _ _ Ej); reflexivity.
Qed.

(** A state whose floor flag is set comes from a controller with a floor. *)
Lemma init_flag_needs_dtmin (self : IController T) (t0 : T) (y0 : list T)
    (dt0 : option T) (args : A) (solver : AbstractSolver T A) (t1 : T)
    (j : bool) :
  init self t0 y0 dt0 args solver = OK (t1, (j, true)) ->
  dtmin self <> None.
Proof.
  unfold init.
  destruct (match dt0 with None => _ | Some d => _ end) as [d|x];
    cbn [bind]; [|discriminate].
  destruct (dtmin self) as [m|]; [discriminate|].
  destruct (_clip_step_ts _ _ _) as [u|x]; cbn [bind]; [|discriminate].
  destruct (_clip_jump_ts _ _ _) as [[v j']|x]; cbn [bind]; discriminate.
Qed.

End StepSizeFacts.

(** X6. [adapt_step_size] reports [dt_min_reached] exactly when [dtmin] is
    configured, [force_dtmin] is off and the new step size (after the
    multiplier and the [dtmax] clip) is strictly below [dtmin]; it sets
    [at_dtmin] exactly when [dtmin] is configured and that step size is
    below or equal to it.  A step size that lands exactly on [dtmin] thus
    sets the flag without changing the result code. *)
Theorem result_code_rule :
  forall (T : Type) (S : Scalar T) (Adj : Adjacent T) (P : Power T)
    (B : Batch T) (A : Type) (self : IController T) (t0 t1 : T)
    (y0 y1_candidate : list T) (args : A) (y_error : list T)
    (solver_order : Z) (made_jump at_dtmin : bool)
    (keep_step : bool) (next_t0 next_t1 : T) (made_jump' : bool)
    (next_made_jump at_dtmin' : bool) (result : RESULTS),
    adapt_step_size self t0 t1 y0 y1_candidate args (Some y_error)
      solver_order (made_jump, at_dtmin)
    = OK (keep_step, next_t0, next_t1, made_jump',
          (next_made_jump, at_dtmin'), result) ->
    let scaled_error := adapt_scaled_error self y_error y0 y1_candidate in
    let factor := adapt_factor self scaled_error solver_order keep_step in
    let dt := adapt_proposed_dt self (t1 - t0)%sc factor in
    (result = dt_min_reached <->
     exists d, dtmin self = Some d /\ force_dtmin self = false /\
               (dt <? d)%sc = true) /\
    (at_dtmin' = true <->
     exists d, dtmin self = Some d /\ (dt <=? d)%sc = true).
Proof.
  intros T S Adj P B A self t0 t1 y0 y1 args e k mj ad keep nt0 nt1 mj'
    nmj ad' r Hcall.
  apply adapt_step_size_returns in Hcall.
  destruct Hcall as (_ & _ & _ & Hfloor & _). cbv zeta in Hfloor |- *.
  set (dt := adapt_proposed_dt _ _ _) in *. clearbody dt.
  unfold adapt_floor_dt, jnp_where in Hfloor.
  destruct (dtmin self) as [d|].
  - cbn [snd] in Hfloor. injection Hfloor as Hr Ha. split.
    + split.
      * intros ->. exists d. split; [reflexivity|].
        destruct (force_dtmin self); [discriminate|]. cbn [negb] in Hr.
        destruct (dt <? d)%sc; [split; reflexivity | discriminate].
      * intros (d' & [= <-] & Hf & Hlt). rewrite Hf, Hlt in Hr.
        symmetry. exact Hr.
    + split.
      * intros E. exists d. split; [reflexivity|]. congruence.
      * intros (d' & [= <-] & Hle). congruence.
  - cbn [snd] in Hfloor. injection Hfloor as Hr Ha. split.
    + split; [congruence | intros (d & Hd & _); discriminate].
    + split; [congruence | intros (d & Hd & _); discriminate].
Qed.

Lemma result_code_rule_witness :
  exists keep_step next_t0 next_t1 next_made_jump at_dtmin' result,
    adapt_step_size (floor_controller false) 0%R 1%R [1%R] [1%R] tt
      (Some [0%R]) 4 (false, false)
    = OK (keep_step, next_t0, next_t1, false,
          (next_made_jump, at_dtmin'), result) /\
    result = successful.
Proof.
  pose proof (adapt_step_size_no_grids (floor_controller false) 0%R 1%R
                [1%R] [1%R] tt [0%R] 4 false false eq_refl eq_refl) as Hcall.
  cbv zeta in Hcall.
  pose proof Hcall as Hrule. apply result_code_rule in Hrule.
  cbv zeta in Hrule. destruct Hrule as [Hres _].
  do 6 eexists. split; [exact Hcall|].
  match goal with |- ?r = successful => destruct r eqn:Er end;
    [reflexivity|].
  exfalso. destruct (proj1 Hres eq_refl) as (d & [= <-] & _ & Hlt).
  rewrite exact_scaled_error_zero in Hlt by reflexivity.
  rewrite exact_factor_zero_error in Hlt by reflexivity.
  apply exact_lt_iff in Hlt. cbn in Hlt. lra.
Defined.

Section ExactBounds.

Open Scope R_scope.

(** The step clipper never lengthens an interval. *)
Lemma exact_clip_step_ts_le (self : IController R) (t0 t1 u : R) :
  _clip_step_ts self t0 t1 = OK u -> u <= t1.
Proof.
  intros Hclip.
  destruct (clip_step_ts_cases self t0 t1 u Hclip)
    as [->|(s & _ & _ & _ & Hlt)]; [lra|].
  destruct (Rle_dec u t1) as [Hle|Hn]; [exact Hle|].
  assert (Hc : t1 <= u) by lra. apply exact_le_iff in Hc. congruence.
Qed.

(** The two clips of a step size keep it below [dtmax], as long as the
    floor is not above the ceiling. *)
Lemma exact_floor_le_dtmax (self : IController R) (dt M : R) :
  dtmax self = Some M -> (forall m, dtmin self = Some m -> m <= M) ->
  snd (adapt_floor_dt self (Rmin dt M)) <= M.
Proof.
  intros EM Hm. unfold adapt_floor_dt. destruct (dtmin self) as [m|].
  - cbn [snd]. change (jnp_maximum ?a ?b) with (Rmax a b).
    apply Rmax_lub; [apply Rmin_r | apply Hm; reflexivity].
  - cbn [snd]. apply Rmin_r.
Qed.

End ExactBounds.

(** X7. With [dtmax = M], a floor that is not above it and ascending
    mandatory times (or none), no interval returned by [init] or
    [adapt_step_size] is longer than [M].  With [dtmin = m] and no grid, no
    returned interval is shorter than [m].  Both hold in scalar and in
    lockstep-batched mode (exact arithmetic). *)
Theorem step_size_bounds :
  forall (B : Batch R) (A : Type) (self : IController R),
    (forall M : R,
        dtmax self = Some M ->
        (forall m, dtmin self = Some m -> (m <= M)%R) ->
        (forall s, step_ts self = Some s -> StronglySorted Rle s) ->
        (forall (t0 : R) (y0 : list R) (dt0 : option R) (args : A)
            (solver : AbstractSolver R A) (t1 : R)
            (state : _ControllerState),
            init self t0 y0 dt0 args solver = OK (t1, state) ->
            (t1 <= t0 + M)%R) /\
        (forall (t0 t1 : R) (y0 y1_candidate : list R) (args : A)
            (y_error : list R) (solver_order : Z)
            (state : _ControllerState) (keep_step : bool)
            (next_t0 next_t1 : R) (made_jump' : bool)
            (state' : _ControllerState) (result : RESULTS),
            adapt_step_size self t0 t1 y0 y1_candidate args (Some y_error)
              solver_order state
            = OK (keep_step, next_t0, next_t1, made_jump', state', result) ->
            (next_t1 <= next_t0 + M)%R)) /\
    (forall m : R,
        dtmin self = Some m -> step_ts self = None -> jump_ts self = None ->
        (forall (t0 : R) (y0 : list R) (dt0 : option R) (args : A)
            (solver : AbstractSolver R A) (t1 : R)
            (state : _ControllerState),
            init self t0 y0 dt0 args solver = OK (t1, state) ->
            (t0 + m <= t1)%R) /\
        (forall (t0 t1 : R) (y0 y1_candidate : list R) (args : A)
            (y_error : list R) (solver_order : Z)
            (state : _ControllerState) (keep_step : bool)
            (next_t0 next_t1 : R) (made_jump' : bool)
            (state' : _ControllerState) (result : RESULTS),
            adapt_step_size self t0 t1 y0 y1_candidate args (Some y_error)
              solver_order state
            = OK (keep_step, next_t0, next_t1, made_jump', state', result) ->
            (next_t0 + m <= next_t1)%R)).
Proof.
  intros B A self. split.
  - intros M EM Hm Hsorted.
    pose proof (exact_step_ts_ascending self Hsorted) as Hasc. split.
    + intros t0 y0 dt0 args solver t1 state. unfold init.
      destruct (match dt0 with None => _ | Some d => _ end) as [d|x];
        cbn [bind]; [|discriminate].
      rewrite EM.
      set (d' := if unvmap_dt self then jnp_min (unvmap other_dt0 d)
                 else d).
      pose proof (exact_floor_le_dtmax self d' M EM Hm) as Hle.
      unfold adapt_floor_dt in Hle.
      change (jnp_minimum d' M) with (Rmin d' M).
      destruct (dtmin self) as [m|]; cbn [snd] in Hle;
        (destruct (_clip_step_ts _ _ _) as [u|x] eqn:Es; cbn [bind];
           [|discriminate];
         destruct (_clip_jump_ts _ _ _) as [[v j]|x] eqn:Ej; cbn [bind];
           [|discriminate];
         intros [= <- _];
         destruct (clip_jump_ts_after_clip_step_ts
                     _ _ _ _ _ _ Hasc Es Ej) as [-> _];
         apply exact_clip_step_ts_le in Es;
         change (t_add ?a ?b) with (a + b)%R in Es; lra).
    + intros t0 t1 y0 y1 args e k [mj ad] keep nt0 nt1 mj' [nmj ad'] r Hcall.
      apply adapt_step_size_returns in Hcall. cbv zeta in Hcall.
      destruct Hcall as (_ & _ & _ & _ & u & Es & Ej).
      destruct (clip_jump_ts_after_clip_step_ts
                  _ _ _ _ _ _ Hasc Es Ej) as [-> _].
      apply exact_clip_step_ts_le in Es.
      unfold adapt_proposed_dt in Es. rewrite EM in Es.
      match type of Es with
      | context [jnp_minimum ?a M] =>
          pose proof (exact_floor_le_dtmax self a M EM Hm) as Hle;
            change (jnp_minimum a M) with (Rmin a M) in Es
      end.
      change (t_add ?a ?b) with (a + b)%R in Es. lra.
  - intros m Em Es Ej. split.
    + intros t0 y0 dt0 args solver t1 state. unfold init.
      destruct (match dt0 with None => _ | Some d => _ end) as [d|x];
        cbn [bind]; [|discriminate].
      rewrite Em. rewrite (clip_step_ts_none _ _ _ Es). cbn [bind].
      rewrite (clip_jump_ts_none _ _ _ Ej). cbn [bind].
      intros [= <- _].
      match goal with
      | |- context [Rmax ?a m] => pose proof (Rmax_r a m) as Hle
      end.
      lra.
    + intros t0 t1 y0 y1 args e k [mj ad] keep nt0 nt1 mj' [nmj ad'] r Hcall.
      apply adapt_step_size_returns in Hcall. cbv zeta in Hcall.
      destruct Hcall as (_ & _ & _ & _ & u & Hs & Hj).
      rewrite (clip_step_ts_none _ _ _ Es) in Hs. injection Hs as <-.
      rewrite (clip_jump_ts_none _ _ _ Ej) in Hj. injection Hj as <- _.
      unfold adapt_floor_dt. rewrite Em. cbn [snd].
      match goal with
      | |- context [jnp_maximum ?a m] =>
          pose proof (Rmax_r a m) as Hle;
            change (jnp_maximum a m) with (Rmax a m)
      end.
      change (t_add ?a ?b) with (a + b)%R. lra.
Qed.

Lemma step_size_bounds_witness :
  exists keep_step next_t0 next_t1 state' result,
    adapt_step_size bounded_controller 0%R 1%R [1%R] [1%R] tt (Some [0%R]) 4
      (false, false)
    = OK (keep_step, next_t0, next_t1, false, state', result) /\
    (next_t0 + 1 / 100 <= next_t1 <= next_t0 + 1)%R.
Proof.
  pose proof (adapt_step_size_no_grids bounded_controller 0%R 1%R
                [1%R] [1%R] tt [0%R] 4 false false eq_refl eq_refl) as Hcall.
  cbv zeta in Hcall.
  pose proof (step_size_bounds one_lane unit bounded_controller)
    as [Hmax Hmin].
  assert (Hfloor : forall m : R,
             dtmin bounded_controller = Some m -> (m <= 1)%R).
  { intros m [= <-]. lra. }
  assert (Hsorted : forall s : list R,
             step_ts bounded_controller = Some s -> StronglySorted Rle s).
  { intros s Hs. discriminate Hs. }
  do 5 eexists. split; [exact Hcall|]. split.
  - exact (proj2 (Hmin (1 / 100)%R eq_refl eq_refl eq_refl)
             _ _ _ _ _ _ _ _ _ _ _ _ _ _ Hcall).
  - exact (proj2 (Hmax 1%R eq_refl Hfloor Hsorted)
             _ _ _ _ _ _ _ _ _ _ _ _ _ _ Hcall).
Defined.

(** X8. A state whose [at_dtmin] flag was set by the controller, by [init]
    or by an earlier [adapt_step_size], makes the next [adapt_step_size]
    keep the step whatever its error: in scalar mode a step taken at the
    floor is never rejected.  In lockstep-batched mode it is kept exactly
    when every other lane keeps its step. *)
Theorem floored_step_is_kept :
  forall (T : Type) (S : Scalar T) (Adj : Adjacent T) (P : Power T)
    (B : Batch T) (A : Type) (self : IController T),
    (forall (t0 : T) (y0 : list T) (dt0 : option T) (args : A)
        (solver : AbstractSolver T A) (t1 : T) (jump_next_step : bool),
        init self t0 y0 dt0 args solver = OK (t1, (jump_next_step, true)) ->
        forall (t0' t1' : T) (y0' y1_candidate : list T) (args' : A)
          (y_error : list T) (solver_order : Z) (keep_step : bool)
          (next_t0 next_t1 : T) (made_jump' : bool)
          (state' : _ControllerState) (result : RESULTS),
          adapt_step_size self t0' t1' y0' y1_candidate args' (Some y_error)
            solver_order (jump_next_step, true)
          = OK (keep_step, next_t0, next_t1, made_jump', state', result) ->
          keep_step
          = if unvmap_dt self then jnp_all other_keep_step else true) /\
    (forall (t0 t1 : T) (y0 y1_candidate : list T) (args : A)
        (y_error : list T) (solver_order : Z) (state : _ControllerState)
        (keep_step : bool) (next_t0 next_t1 : T) (made_jump' : bool)
        (next_made_jump : bool) (result : RESULTS),
        adapt_step_size self t0 t1 y0 y1_candidate args (Some y_error)
          solver_order state
        = OK (keep_step, next_t0, next_t1, made_jump',
              (next_made_jump, true), result) ->
        forall (t0' t1' : T) (y0' y1_candidate' : list T) (args' : A)
          (y_error' : list T) (solver_order' : Z) (keep_step' : bool)
          (next_t0' next_t1' : T) (made_jump'' : bool)
          (state' : _ControllerState) (result' : RESULTS),
          adapt_step_size self t0' t1' y0' y1_candidate' args'
            (Some y_error') solver_order' (next_made_jump, true)
          = OK (keep_step', next_t0', next_t1', made_jump'', state',
                result') ->
          keep_step'
          = if unvmap_dt self then jnp_all other_keep_step else true).
Proof.
  intros T S Adj P B A self.
  assert (Hkeep : dtmin self <> None ->
            forall (t0 t1 : T) (y0 y1 : list T) (args : A) (e : list T)
              (k : Z) (j keep : bool) (nt0 nt1 : T) (mj' : bool)
              (st : _ControllerState) (r : RESULTS),
              adapt_step_size self t0 t1 y0 y1 args (Some e) k (j, true)
              = OK (keep, nt0, nt1, mj', st, r) ->
              keep = if unvmap_dt self then jnp_all other_keep_step
                     else true).
  { intros Hd t0 t1 y0 y1 args e k j keep nt0 nt1 mj' [nmj ad'] r Hcall.
    apply adapt_step_size_returns in Hcall. destruct Hcall as (-> & _).
    apply adapt_keep_step_accepts.
    destruct (dtmin self); [apply orb_true_r | congruence]. }
  split.
  - intros t0 y0 dt0 args solver t1 j Hinit.
    intros t0' t1' y0' y1' args' e k keep nt0 nt1 mj' st r.
    apply Hkeep. exact (init_flag_needs_dtmin _ _ _ _ _ _ _ _ Hinit).
  - intros t0 t1 y0 y1 args e k [mj ad] keep nt0 nt1 mj' nmj r Hcall.
    intros t0' t1' y0' y1' args' e' k' keep' nt0' nt1' mj'' st r'.
    apply Hkeep. apply adapt_step_size_returns in Hcall.
    destruct Hcall as (_ & _ & _ & Hfloor & _). cbv zeta in Hfloor.
    unfold adapt_floor_dt in Hfloor.
    destruct (dtmin self); [discriminate | cbn [snd] in Hfloor; discriminate].
Qed.

Lemma floored_step_is_kept_witness :
  exists t1 keep_step next_t0 next_t1 state' result,
    init (floor_controller true) 0%R [1%R] (Some (1 / 1000)%R) tt decay_solver
    = OK (t1, (false, true)) /\
    adapt_step_size (floor_controller true) 0%R t1 [1%R] [1%R] tt
      (Some [1%R]) 4 (false, true)
    = OK (keep_step, next_t0, next_t1, false, state', result) /\
    keep_step = true.
Proof.
  assert (Hinit :
            init (floor_controller true) 0%R [1%R] (Some (1 / 1000)%R) tt
              decay_solver
            = OK ((0 + Rmax (1 / 1000) (1 / 100))%R, (false, true))).
  { rewrite init_no_grids by reflexivity. cbv zeta.
    cbn [floor_controller with_dtmin default_controller dtmin dtmax
           unvmap_dt].
    replace (((1 / 1000)%R <=? (1 / 100)%R)%sc) with true; [reflexivity|].
    symmetry. apply exact_le_iff. lra. }
  pose proof (adapt_step_size_no_grids (floor_controller true) 0%R
                (0 + Rmax (1 / 1000) (1 / 100))%R [1%R] [1%R] tt [1%R] 4
                false true eq_refl eq_refl) as Hcall.
  cbv zeta in Hcall.
  do 6 eexists. split; [exact Hinit|]. split; [exact Hcall|].
  exact (proj1 (floored_step_is_kept R R_scalar R_adjacent R_power one_lane
                  unit (floor_controller true))
           _ _ _ _ _ _ _ Hinit _ _ _ _ _ _ _ _ _ _ _ _ _ Hcall).
Defined.

(** ** The multiplier in exact arithmetic *)

Section ExactFactorFacts.

Open Scope R_scope.

Lemma exact_lane_factor_value (self : IController R) (se : R) (k : Z)
    (keep : bool) :
  se <> 0 ->
  adapt_lane_factor self se k keep
  = Rmin (ifactor self)
      (Rmax (if keep then 1 else dfactor self)
         (safety self / Rpower se (1 / IZR k))).
Proof.
  intros Hse. rewrite adapt_lane_factor_eq.
  destruct (se =? of_Z 0)%sc eqn:E0.
  { apply exact_eq_iff in E0. rewrite exact_of_Z in E0. contradiction. }
  rewrite exact_clip, !exact_of_Z. reflexivity.
Qed.

Lemma exact_lane_factor_range (self : IController R) (se : R) (k : Z)
    (keep : bool) :
  config_wf self ->
  (if keep then 1 else dfactor self)
  <= adapt_lane_factor self se k keep <= ifactor self.
Proof.
  intros (Hs & Hi & Hd).
  destruct (Req_dec_T se 0) as [->|Hse].
  - rewrite exact_lane_factor_zero_error. destruct keep; lra.
  - rewrite exact_lane_factor_value by exact Hse.
    set (low := if keep then 1 else dfactor self).
    assert (Hlow : low <= ifactor self) by (subst low; destruct keep; lra).
    split; [|apply Rmin_l].
    apply Rmin_glb; [exact Hlow | apply Rmax_l].
Qed.

(** The multiplier of a lane does not grow with its scaled error. *)
Lemma exact_lane_factor_antitone (self : IController R) (se1 se2 : R)
    (k : Z) (keep : bool) :
  0 <= safety self -> (1 <= k)%Z -> 0 <= se1 <= se2 ->
  adapt_lane_factor self se2 k keep <= adapt_lane_factor self se1 k keep.
Proof.
  intros Hs Hk [H1 H12].
  destruct (Req_dec_T se1 0) as [->|Hse1].
  - rewrite (exact_lane_factor_zero_error self k keep).
    destruct (Req_dec_T se2 0) as [->|Hse2].
    + rewrite exact_lane_factor_zero_error. lra.
    + rewrite exact_lane_factor_value by exact Hse2. apply Rmin_l.
  - assert (Hpos1 : 0 < se1) by lra.
    rewrite !exact_lane_factor_value by lra.
    set (e := 1 / IZR k).
    assert (He : 0 <= e).
    { subst e. apply Rlt_le, Rdiv_lt_0_compat; [lra|]. apply IZR_lt. lia. }
    assert (Hp : Rpower se1 e <= Rpower se2 e).
    { apply Rle_Rpower_l; [exact He | lra]. }
    assert (Hp1 : 0 < Rpower se1 e) by (unfold Rpower; apply exp_pos).
    assert (Hq : safety self / Rpower se2 e <= safety self / Rpower se1 e).
    { unfold Rdiv. apply Rmult_le_compat_l; [exact Hs|].
      apply Rinv_le_contravar; assumption. }
    apply Rle_min_compat_l. apply Rle_max_compat_l. exact Hq.
Qed.

Context {lanes : Batch R}.

(** The multiplier that is applied is at most the one of the lane. *)
Lemma exact_factor_le_lane (self : IController R) (se : R) (k : Z)
    (keep : bool) :
  adapt_factor self se k keep <= adapt_lane_factor self se k keep.
Proof.
  rewrite adapt_factor_eq. cbv zeta.
  destruct (unvmap_dt self); [apply exact_jnp_min_le | lra].
Qed.

(** It is at least every lower bound the other lanes respect. *)
Lemma exact_factor_lower (self : IController R) (se : R) (k : Z)
    (keep : bool) (lo : R) :
  lo <= adapt_lane_factor self se k keep ->
  (unvmap_dt self = true -> Forall (fun f => lo <= f) other_factor) ->
  lo <= adapt_factor self se k keep.
Proof.
  intros Hlo Hothers. rewrite adapt_factor_eq. cbv zeta.
  destruct (unvmap_dt self); [|exact Hlo].
  apply exact_jnp_min_ge; [exact Hlo | apply Hothers; reflexivity].
Qed.

Lemma exact_factor_range (self : IController R) (se : R) (k : Z)
    (keep : bool) :
  config_wf self ->
  (unvmap_dt self = true ->
   Forall (fun f => (if keep then 1 else dfactor self) <= f) other_factor) ->
  (if keep then 1 else dfactor self)
  <= adapt_factor self se k keep <= ifactor self.
Proof.
  intros Hwf Hothers.
  pose proof (exact_lane_factor_range self se k keep Hwf) as [Hlo Hhi].
  split.
  - apply exact_factor_lower; assumption.
  - pose proof (exact_factor_le_lane self se k keep). lra.
Qed.

(** The multiplier that is applied does not grow with the scaled error of
    the lane, the other lanes being the same. *)
Lemma exact_factor_antitone (self : IController R) (se1 se2 : R) (k : Z)
    (keep : bool) :
  0 <= safety self -> (1 <= k)%Z -> 0 <= se1 <= se2 ->
  adapt_factor self se2 k keep <= adapt_factor self se1 k keep.
Proof.
  intros Hs Hk Hse.
  pose proof (exact_lane_factor_antitone self se1 se2 k keep Hs Hk Hse)
    as Hlane.
  rewrite !adapt_factor_eq. cbv zeta.
  destruct (unvmap_dt self); [|exact Hlane].
  apply exact_jnp_min_mono. exact Hlane.
Qed.

End ExactFactorFacts.

(** X9. For a configuration of the specified domain the multiplier always
    lies between [dfactor] and [ifactor], and between 1 and [ifactor] when
    the step is kept.  Without step size bounds and grids the next interval
    is therefore at least as long as a kept one, at least [dfactor] times as
    long as a rejected one, and never more than [ifactor] times as long
    (exact arithmetic).  In lockstep-batched mode the upper bounds hold as
    they are, and the lower bounds as long as the multipliers of the other
    lanes respect them. *)
Theorem multiplier_range :
  forall (B : Batch R) (A : Type) (self : IController R),
    config_wf self ->
    (forall (scaled_error : R) (solver_order : Z) (keep_step : bool),
        (unvmap_dt self = true ->
         Forall (fun f => ((if keep_step then 1 else dfactor self) <= f)%R)
           other_factor) ->
        ((if keep_step then 1 else dfactor self)
         <= adapt_factor self scaled_error solver_order keep_step
         <= ifactor self)%R) /\
    (dtmin self = None -> dtmax self = None ->
     step_ts self = None -> jump_ts self = None ->
     forall (t0 t1 : R) (y0 y1_candidate : list R) (args : A)
       (y_error : list R) (solver_order : Z) (state : _ControllerState)
       (keep_step : bool) (next_t0 next_t1 : R) (made_jump' : bool)
       (state' : _ControllerState) (result : RESULTS),
       adapt_step_size self t0 t1 y0 y1_candidate args (Some y_error)
         solver_order state
       = OK (keep_step, next_t0, next_t1, made_jump', state', result) ->
       (t0 <= t1)%R ->
       (unvmap_dt self = true ->
        Forall (fun f => ((if keep_step then 1 else dfactor self) <= f)%R)
          other_factor) ->
       ((t1 - t0) * (if keep_step then 1 else dfactor self)
        <= next_t1 - next_t0 <= (t1 - t0) * ifactor self)%R).
Proof.
  intros B A self Hwf. split.
  - intros se k keep Hothers. apply exact_factor_range; assumption.
  - intros Em EM Es Ej t0 t1 y0 y1 args e k [mj ad] keep nt0 nt1 mj'
      [nmj ad'] r Hcall Hle Hothers.
    apply adapt_step_size_returns in Hcall. cbv zeta in Hcall.
    destruct Hcall as (_ & _ & _ & _ & u & Hs & Hj).
    rewrite (clip_step_ts_none _ _ _ Es) in Hs. injection Hs as <-.
    rewrite (clip_jump_ts_none _ _ _ Ej) in Hj. injection Hj as <- _.
    unfold adapt_floor_dt, adapt_proposed_dt. rewrite Em, EM. cbn [snd].
    pose proof (exact_factor_range self
                  (adapt_scaled_error self e y0 y1) k keep Hwf Hothers)
      as Hf.
    set (f := adapt_factor self _ k keep) in *. clearbody f.
    set (low := if keep then 1%R else dfactor self) in *. clearbody low.
    change (t_add ?a ?b) with (a + b)%R.
    change (t_mul ?a ?b) with (a * b)%R.
    change (t_sub ?a ?b) with (a - b)%R.
    split; nra.
Qed.

Lemma multiplier_range_witness :
  exists keep_step next_t0 next_t1 state' result,
    adapt_step_size default_controller 0%R 1%R [1%R] [1%R] tt (Some [0%R]) 4
      (false, false)
    = OK (keep_step, next_t0, next_t1, false, state', result) /\
    (next_t1 - next_t0 <= (1 - 0) * ifactor default_controller)%R.
Proof.
  pose proof (adapt_step_size_no_grids default_controller 0%R 1%R
                [1%R] [1%R] tt [0%R] 4 false false eq_refl eq_refl) as Hcall.
  cbv zeta in Hcall.
  pose proof (proj2 (multiplier_range one_lane unit default_controller
                       default_controller_wf)
                eq_refl eq_refl eq_refl eq_refl) as Hrule.
  do 5 eexists. split; [exact Hcall|].
  apply (Hrule _ _ _ _ _ _ _ _ _ _ _ _ _ _ Hcall).
  - lra.
  - intros Hu. discriminate Hu.
Defined.

(** X10. A step whose scaled error is at least 1 is rejected (without a
    floor on the step size) and retried from the same start with an
    interval that ends strictly before the rejected one; without [dtmax]
    the retried interval is at least [dfactor] times as long as the rejected
    one (exact arithmetic, configuration of the specified domain, no
    grids).  This holds in lockstep-batched mode as well, the last bound as
    long as the multipliers of the other lanes are at least [dfactor]. *)
Theorem rejected_step_shrinks :
  forall (B : Batch R) (A : Type) (self : IController R),
    config_wf self -> dtmin self = None ->
    step_ts self = None -> jump_ts self = None ->
    forall (t0 t1 : R) (y0 y1_candidate : list R) (args : A)
      (y_error : list R) (solver_order : Z) (state : _ControllerState)
      (keep_step : bool) (next_t0 next_t1 : R) (made_jump' : bool)
      (state' : _ControllerState) (result : RESULTS),
      adapt_step_size self t0 t1 y0 y1_candidate args (Some y_error)
        solver_order state
      = OK (keep_step, next_t0, next_t1, made_jump', state', result) ->
      (1 <= solver_order)%Z ->
      (1 <= adapt_scaled_error self y_error y0 y1_candidate)%R ->
      (t0 < t1)%R ->
      keep_step = false /\ next_t0 = t0 /\ (next_t1 < t1)%R /\
      (dtmax self = None ->
       (unvmap_dt self = true ->
        Forall (fun f => (dfactor self <= f)%R) other_factor) ->
       (t0 + dfactor self * (t1 - t0) <= next_t1)%R).
Proof.
  intros B A self Hwf Em Es Ej t0 t1 y0 y1 args e k [mj ad] keep nt0 nt1 mj'
    [nmj ad'] r Hcall Hk Hse Hlt.
  apply adapt_step_size_returns in Hcall. cbv zeta in Hcall.
  destruct Hcall as (Hkeep & Hnt0 & _ & _ & u & Hs & Hj).
  rewrite (clip_step_ts_none _ _ _ Es) in Hs. injection Hs as <-.
  rewrite (clip_jump_ts_none _ _ _ Ej) in Hj. injection Hj as <- _.
  assert (Hrej : adapt_keep_step self (adapt_scaled_error self e y0 y1) ad
                 = false).
  { apply adapt_keep_step_rejects. rewrite Em.
    apply exact_error_not_below_1. exact Hse. }
  rewrite Hrej in Hkeep. subst keep.
  assert (Hstart : nt0 = t0) by (rewrite Hnt0; reflexivity).
  subst nt0.
  pose proof (exact_factor_rejected self _ k Hwf Hk Hse) as [Hlow Hup].
  pose proof (exact_factor_le_lane self
                (adapt_scaled_error self e y0 y1) k false) as Hle.
  pose proof (exact_factor_lower self
                (adapt_scaled_error self e y0 y1) k false (dfactor self)
                Hlow) as Hge.
  destruct Hwf as (Hsaf & Hi & Hd).
  assert (Hone : (Rmax (dfactor self) (safety self) < 1)%R)
    by (apply Rmax_lub_lt; lra).
  set (g := adapt_lane_factor self _ k false) in *. clearbody g.
  set (f := adapt_factor self _ k false) in *. clearbody f.
  unfold adapt_floor_dt, adapt_proposed_dt. rewrite Em. cbn [snd].
  change (t_add ?a ?b) with (a + b)%R.
  change (t_mul ?a ?b) with (a * b)%R.
  change (t_sub ?a ?b) with (a - b)%R.
  split; [reflexivity|]. split; [reflexivity|]. split.
  - destruct (dtmax self) as [M|].
    + change (jnp_minimum ?a ?b) with (Rmin a b).
      pose proof (Rmin_l ((t1 - t0) * f) M). nra.
    + nra.
  - intros -> Hothers. specialize (Hge Hothers). nra.
Qed.

Lemma rejected_step_shrinks_witness :
  exists keep_step next_t0 next_t1 state' result,
    adapt_step_size default_controller 0%R 1%R [1%R] [1%R] tt (Some [1%R]) 4
      (false, false)
    = OK (keep_step, next_t0, next_t1, false, state', result) /\
    keep_step = false /\ next_t0 = 0%R /\ (next_t1 < 1)%R.
Proof.
  pose proof (adapt_step_size_no_grids default_controller 0%R 1%R
                [1%R] [1%R] tt [1%R] 4 false false eq_refl eq_refl) as Hcall.
  cbv zeta in Hcall.
  pose proof (rejected_step_shrinks one_lane unit default_controller
                default_controller_wf eq_refl eq_refl eq_refl
                _ _ _ _ _ _ _ _ _ _ _ _ _ _ Hcall
                ltac:(lia) exact_default_scaled_error ltac:(lra))
    as (Hkeep & Hstart & Hend & _).
  do 5 eexists. split; [exact Hcall|].
  split; [exact Hkeep|]. split; [exact Hstart | exact Hend].
Defined.

(** X11. The multiplier never grows with the scaled error: of two
    non-negative scaled errors, the larger one gets a multiplier that is at
    most that of the smaller one, for the same accept decision (exact
    arithmetic, non-negative [safety], order at least 1); in
    lockstep-batched mode for the same other lanes. *)
Theorem multiplier_antitone :
  forall (B : Batch R) (self : IController R) (error error' : R)
    (solver_order : Z) (keep_step : bool),
    (0 <= safety self)%R -> (1 <= solver_order)%Z ->
    (0 <= error <= error')%R ->
    (adapt_factor self error' solver_order keep_step
     <= adapt_factor self error solver_order keep_step)%R.
Proof.
  intros B self se1 se2 k keep Hs Hk Hse.
  destruct Hse as [H1 H12].
  apply exact_factor_antitone; [exact Hs | exact Hk | split; assumption].
Qed.

Lemma multiplier_antitone_witness :
  (adapt_factor default_controller 4%R 4 false
   <= adapt_factor default_controller 2%R 4 false)%R.
Proof.
  apply multiplier_antitone.
  - cbn. lra.
  - lia.
  - lra.
Defined.

(** ** The norm and the error scaler in exact arithmetic *)

Section ExactNormFacts.

Open Scope R_scope.

Lemma sum_squares_acc (l : list R) (a : R) :
  fold_left Rplus (map square l) a = a + fold_left Rplus (map square l) 0.
Proof.
  revert a. induction l as [|v l IH]; intros a; cbn [map fold_left].
  - lra.
  - rewrite (IH (a + square v)), (IH (0 + square v)). lra.
Qed.

Lemma sum_squares_cons (v : R) (l : list R) :
  fold_left Rplus (map square (v :: l)) 0
  = v * v + fold_left Rplus (map square l) 0.
Proof.
  cbn [map fold_left]. rewrite sum_squares_acc.
  unfold square. cbn [t_mul R_scalar]. lra.
Qed.

(** Bounds on the entries carry over to the sum of the squares. *)
Lemma sum_squares_bounds (l : list R) (lo hi : R) :
  (forall v, In v l -> lo <= v * v <= hi) ->
  IZR (Z.of_nat (List.length l)) * lo
  <= fold_left Rplus (map square l) 0
  <= IZR (Z.of_nat (List.length l)) * hi.
Proof.
  induction l as [|v l IH]; intros Hb.
  - cbn. lra.
  - rewrite sum_squares_cons.
    specialize (IH (fun w Hw => Hb w (or_intror Hw))).
    pose proof (Hb v (or_introl eq_refl)) as Hv.
    cbn [List.length]. rewrite Nat2Z.inj_succ, succ_IZR. lra.
Qed.

Lemma mean_squares_bounds (l : list R) (lo hi : R) :
  l <> [] -> (forall v, In v l -> lo <= v * v <= hi) ->
  lo <= jnp_mean (map square l) <= hi.
Proof.
  intros Hne Hb. rewrite exact_mean_squares.
  pose proof (sum_squares_bounds l lo hi Hb) as Hs.
  assert (Hn : 0 < IZR (Z.of_nat (List.length l))).
  { apply IZR_lt. destruct l; [congruence | cbn [List.length]; lia]. }
  set (n := IZR (Z.of_nat (List.length l))) in *.
  set (t := fold_left Rplus (map square l) 0) in *.
  assert (Hq : t / n * n = t) by (field; lra).
  set (q := t / n) in *. clearbody q. split; nra.
Qed.

(** The norm lies between the smallest and the largest magnitude of the
    entries. *)
Lemma exact_rms_norm_between (x : PyTree R) (a b : R) :
  ravel_pytree x <> [] -> 0 <= a ->
  (forall v, In v (ravel_pytree x) -> a <= Rabs v <= b) ->
  a <= _rms_norm x <= b.
Proof.
  intros Hne Ha Hb. rewrite exact_rms_norm_sqrt by exact Hne.
  assert (Hb0 : 0 <= b).
  { destruct (ravel_pytree x) as [|v l]; [congruence|].
    pose proof (Hb v (or_introl eq_refl)). lra. }
  assert (Hm : a * a <= jnp_mean (map square (ravel_pytree x)) <= b * b).
  { apply mean_squares_bounds; [exact Hne|].
    intros v Hv. specialize (Hb v Hv).
    replace (v * v) with (Rabs v * Rabs v)
      by (unfold Rabs; destruct (Rcase_abs v); lra).
    pose proof (Rabs_pos v). split; nra. }
  split.
  - rewrite <- (sqrt_square a Ha). apply sqrt_le_1_alt. lra.
  - rewrite <- (sqrt_square b Hb0). apply sqrt_le_1_alt. lra.
Qed.

(** A common strict bound on finitely many magnitudes leaves room. *)
Lemma strict_bound_room (l : list R) (c : R) :
  0 < c -> (forall v, In v l -> Rabs v < c) ->
  exists b, 0 <= b < c /\ forall v, In v l -> Rabs v <= b.
Proof.
  intros Hc. induction l as [|v l IH]; intros Hb.
  - exists 0. split; [lra | intros v []].
  - destruct (IH (fun w Hw => Hb w (or_intror Hw))) as (b & Hb0 & Hbl).
    pose proof (Hb v (or_introl eq_refl)) as Hv.
    exists (Rmax (Rabs v) b). split.
    + split.
      * eapply Rle_trans; [apply Hb0 | apply Rmax_r].
      * apply Rmax_lub_lt; lra.
    + intros w [<-|Hw].
      * apply Rmax_l.
      * eapply Rle_trans; [apply (Hbl w Hw) | apply Rmax_r].
Qed.

Lemma exact_rms_norm_below (x : PyTree R) (c : R) :
  0 < c -> (forall v, In v (ravel_pytree x) -> Rabs v < c) ->
  _rms_norm x < c.
Proof.
  intros Hc Hb.
  destruct (ravel_pytree x) as [|v l] eqn:E.
  - rewrite rms_norm_empty by exact E. cbn. lra.
  - destruct (strict_bound_room (v :: l) c Hc Hb) as (b & Hb0 & Hbl).
    assert (Hx : 0 <= _rms_norm x <= b).
    { apply exact_rms_norm_between; rewrite ?E;
        [congruence | lra |].
      intros w Hw. split; [apply Rabs_pos | apply Hbl; exact Hw]. }
    lra.
Qed.

(** The norm vanishes only on the all-zero state. *)
Lemma exact_rms_norm_definite (x : PyTree R) :
  _rms_norm x = 0 -> forall v, In v (ravel_pytree x) -> v = 0.
Proof.
  intros Hz v Hv.
  assert (Hne : ravel_pytree x <> []) by (intros E; rewrite E in Hv; exact Hv).
  rewrite exact_rms_norm_sqrt in Hz by exact Hne.
  pose proof (exact_mean_squares_nonneg (ravel_pytree x)) as Hm.
  apply sqrt_eq_0 in Hz; [|exact Hm].
  rewrite exact_mean_squares in Hz.
  assert (Hn : 0 < IZR (Z.of_nat (List.length (ravel_pytree x)))).
  { apply IZR_lt. destruct (ravel_pytree x); [congruence|].
    cbn [List.length]. lia. }
  assert (Hsum : fold_left Rplus (map square (ravel_pytree x)) 0 = 0).
  { unfold Rdiv in Hz.
    destruct (Rmult_integral _ _ Hz) as [H0|H0]; [exact H0|].
    pose proof (Rinv_0_lt_compat _ Hn). lra. }
  clear Hz Hm Hn Hne. revert Hsum Hv.
  induction (ravel_pytree x) as [|w l IH]; intros Hsum Hv.
  - destruct Hv.
  - rewrite sum_squares_cons in Hsum.
    pose proof (sum_squares_from l 0 ltac:(lra)) as Hl.
    assert (Hw : w * w = 0) by nra.
    assert (Hl0 : fold_left Rplus (map square l) 0 = 0) by nra.
    destruct Hv as [<-|Hv].
    + destruct (Rmult_integral _ _ Hw); assumption.
    + apply IH; assumption.
Qed.

(** Scaling every entry scales the norm by the magnitude of the factor. *)
Lemma exact_rms_norm_scaled (l : list R) (c : R) :
  _rms_norm (Leaf (map (fun v => c * v) l)) = Rabs c * _rms_norm (Leaf l).
Proof.
  destruct l as [|v l].
  - cbn. lra.
  - rewrite !exact_rms_norm_sqrt by (cbn; congruence).
    cbn [ravel_pytree]. rewrite !exact_mean_squares, length_map.
    set (n := IZR (Z.of_nat (List.length (v :: l)))).
    assert (Hsum : fold_left Rplus (map square (map (fun v => c * v) (v :: l))) 0
                   = c * c * fold_left Rplus (map square (v :: l)) 0).
    { generalize (v :: l). intros l'. induction l' as [|w l' IH].
      - cbn. lra.
      - change (map (fun v => c * v) (w :: l'))
          with (c * w :: map (fun v => c * v) l').
        rewrite !sum_squares_cons, IH. lra. }
    rewrite Hsum.
    pose proof (sum_squares_from (v :: l) 0 ltac:(lra)) as Hpos.
    set (t := fold_left Rplus (map square (v :: l)) 0) in *.
    assert (Hn : 0 < n).
    { subst n. apply IZR_lt. cbn [List.length]. lia. }
    replace (c * c * t / n) with (Rsqr c * (t / n))
      by (unfold Rsqr; field; lra).
    rewrite sqrt_mult_alt by apply Rle_0_sqr.
    rewrite sqrt_Rsqr_abs. reflexivity.
Qed.

End ExactNormFacts.

(** X12. In exact arithmetic the RMS norm vanishes exactly on the states
    whose entries are all zero, and the norm of a state with entries lies
    between the smallest and the largest magnitude of its entries. *)
Theorem rms_norm_definite_and_bounded :
  forall x : PyTree R,
    (_rms_norm x = 0%R <-> forall v, In v (ravel_pytree x) -> v = 0%R) /\
    (forall a b : R,
        ravel_pytree x <> [] -> (0 <= a)%R ->
        (forall v, In v (ravel_pytree x) -> (a <= Rabs v <= b)%R) ->
        (a <= _rms_norm x <= b)%R).
Proof.
  intros x. split.
  - split.
    + apply exact_rms_norm_definite.
    + apply exact_rms_norm_zeros.
  - intros a b Hne Ha Hb. apply exact_rms_norm_between; assumption.
Qed.

Lemma rms_norm_definite_and_bounded_witness :
  (3 <= _rms_norm (Node [Leaf [3%R]; Leaf [(-4)%R]]) <= 4)%R.
Proof.
  apply (proj2 (rms_norm_definite_and_bounded
                  (Node [Leaf [3%R]; Leaf [(-4)%R]]))).
  - discriminate.
  - lra.
  - intros v [<-|[<-|[]]].
    + rewrite Rabs_pos_eq by lra. lra.
    + rewrite Rabs_left by lra. lra.
Defined.

(** X13. In exact arithmetic the RMS norm is absolutely homogeneous: if
    every entry of a state is multiplied by [c], the norm is multiplied by
    the magnitude of [c], whatever the tree structure of the two states. *)
Theorem rms_norm_homogeneous :
  forall (x y : PyTree R) (c : R),
    ravel_pytree y = map (fun v => (c * v)%R) (ravel_pytree x) ->
    _rms_norm y = (Rabs c * _rms_norm x)%R.
Proof.
  intros x y c Hy.
  change (_rms_norm y) with (_rms_norm (Leaf (ravel_pytree y))).
  change (_rms_norm x) with (_rms_norm (Leaf (ravel_pytree x))).
  rewrite Hy. apply exact_rms_norm_scaled.
Qed.

Lemma rms_norm_homogeneous_witness :
  _rms_norm (Leaf [(-6)%R; (-8)%R])
  = (Rabs (-2) * _rms_norm (Node [Leaf [3%R]; Leaf [4%R]]))%R.
Proof.
  apply rms_norm_homogeneous. cbn. f_equal; [lra|]. f_equal. lra.
Defined.

Section ExactScalerFacts.

Open Scope R_scope.

(** The entries of the scaled error, one per entry of the three vectors. *)
Lemma scaled_entries (g : R -> R -> R) (e y0 y1 : list R) (q : R) :
  In q (map2 t_div e (map2 g y0 y1)) ->
  exists p, In p (combine e (combine y0 y1)) /\
            q = fst p / g (fst (snd p)) (snd (snd p)).
Proof.
  revert y0 y1. induction e as [|e0 e IH]; intros y0 y1 Hq.
  - destruct Hq.
  - destruct y0 as [|a y0]; [destruct Hq|].
    destruct y1 as [|b y1]; [destruct Hq|].
    cbn [map2 combine] in Hq |- *. destruct Hq as [<-|Hq].
    + exists (e0, (a, b)). split; [left; reflexivity | reflexivity].
    + destruct (IH y0 y1 Hq) as (p & Hp & Ep).
      exists p. split; [right; exact Hp | exact Ep].
Qed.

Lemma scaled_entries_nonempty (g : R -> R -> R) (e y0 y1 : list R) :
  combine e (combine y0 y1) <> [] -> map2 t_div e (map2 g y0 y1) <> [].
Proof.
  destruct e as [|e0 e], y0 as [|a y0], y1 as [|b y1]; cbn; congruence.
Qed.

(** Finitely many magnitudes have a common bound. *)
Lemma magnitudes_bounded (l : list R) :
  exists b, forall v, In v l -> Rabs v <= b.
Proof.
  induction l as [|v l [b Hb]].
  - exists 0. intros v [].
  - exists (Rmax (Rabs v) b). intros w [<-|Hw].
    + apply Rmax_l.
    + eapply Rle_trans; [apply (Hb w Hw) | apply Rmax_r].
Qed.

(** The scaled error under the RMS norm, when [unravel_y] keeps the
    entries. *)
Lemma exact_scaled_error_rms (self : IController R) (e y0 y1 : list R) :
  norm self = _rms_norm ->
  (forall v, ravel_pytree (unravel_y self v) = v) ->
  adapt_scaled_error self e y0 y1
  = _rms_norm
      (Leaf (map2 t_div e
               (map2 (fun a b => atol self + Rmax a b * rtol self) y0 y1))).
Proof.
  intros Hn Hu. unfold adapt_scaled_error, _scale_error_estimate.
  rewrite Hn. unfold _rms_norm at 1. rewrite Hu. reflexivity.
Qed.

End ExactScalerFacts.

(** X14. Under the RMS norm, in exact arithmetic: if the error estimate of
    every entry is strictly within its tolerance
    [atol + max (y0, y1_candidate) * rtol], the step is kept in scalar mode,
    and in lockstep-batched mode exactly when every other lane keeps its
    step; if the state has entries and every error estimate is at or beyond
    a positive tolerance, the step is rejected in both modes, unless the
    floor on the step size forces it. *)
Theorem tolerance_decides_acceptance :
  forall (B : Batch R) (A : Type) (self : IController R),
    norm self = _rms_norm ->
    (forall v, ravel_pytree (unravel_y self v) = v) ->
    forall (t0 t1 : R) (y0 y1_candidate : list R) (args : A)
      (y_error : list R) (solver_order : Z) (made_jump at_dtmin : bool)
      (keep_step : bool) (next_t0 next_t1 : R) (made_jump' : bool)
      (state' : _ControllerState) (result : RESULTS),
      adapt_step_size self t0 t1 y0 y1_candidate args (Some y_error)
        solver_order (made_jump, at_dtmin)
      = OK (keep_step, next_t0, next_t1, made_jump', state', result) ->
      let tolerance :=
        fun p : R * (R * R) =>
          (atol self + Rmax (fst (snd p)) (snd (snd p)) * rtol self)%R in
      let entries := combine y_error (combine y0 y1_candidate) in
      (Forall (fun p => (Rabs (fst p) < tolerance p)%R) entries ->
       keep_step
       = if unvmap_dt self then jnp_all other_keep_step else true) /\
      (entries <> [] ->
       Forall (fun p => (0 < tolerance p <= Rabs (fst p))%R) entries ->
       dtmin self = None \/ at_dtmin = false ->
       keep_step = false).
Proof.
  intros B A self Hn Hu t0 t1 y0 y1 args e k mj ad keep nt0 nt1 mj'
    [nmj ad'] r Hcall.
  apply adapt_step_size_returns in Hcall. destruct Hcall as (-> & _).
  cbv zeta.
  set (g := fun a b : R => (atol self + Rmax a b * rtol self)%R).
  split.
  - intros Hin. apply adapt_keep_step_accepts.
    rewrite (exact_scaled_error_rms self e y0 y1 Hn Hu). fold g.
    assert (Hlt : (_rms_norm (Leaf (map2 t_div e (map2 g y0 y1))) < 1)%R).
    { apply exact_rms_norm_below; [lra|]. cbn [ravel_pytree].
      intros q Hq. destruct (scaled_entries g e y0 y1 q Hq) as (p & Hp & ->).
      rewrite Forall_forall in Hin. specialize (Hin p Hp). cbv beta in Hin.
      fold (g (fst (snd p)) (snd (snd p))) in Hin.
      set (s := g _ _) in *. pose proof (Rabs_pos (fst p)) as Hpos.
      assert (Hs : (0 < s)%R) by lra.
      unfold Rdiv. rewrite Rabs_mult, (Rabs_pos_eq (/ s)).
      - apply (Rmult_lt_reg_r s); [exact Hs|].
        rewrite Rmult_assoc, Rinv_l by lra. lra.
      - apply Rlt_le, Rinv_0_lt_compat. exact Hs. }
    assert (E : (_rms_norm (Leaf (map2 t_div e (map2 g y0 y1)))
                 <? of_Z 1)%sc = true).
    { apply exact_lt_iff. rewrite exact_of_Z. exact Hlt. }
    rewrite E. destruct (dtmin self); reflexivity.
  - intros Hne Hout Hfloor. apply adapt_keep_step_rejects.
    rewrite (exact_scaled_error_rms self e y0 y1 Hn Hu). fold g.
    destruct (magnitudes_bounded (map2 t_div e (map2 g y0 y1))) as [b Hb].
    assert (Hge : (1 <= _rms_norm (Leaf (map2 t_div e (map2 g y0 y1)))
                   <= b)%R).
    { apply exact_rms_norm_between; cbn [ravel_pytree].
      - apply scaled_entries_nonempty. exact Hne.
      - lra.
      - intros q Hq. split; [|apply Hb; exact Hq].
        destruct (scaled_entries g e y0 y1 q Hq) as (p & Hp & ->).
        rewrite Forall_forall in Hout. specialize (Hout p Hp).
        cbv beta in Hout. fold (g (fst (snd p)) (snd (snd p))) in Hout.
        set (s := g _ _) in *. destruct Hout as [Hs Hle].
        unfold Rdiv. rewrite Rabs_mult, (Rabs_pos_eq (/ s)).
        + apply (Rmult_le_reg_r s); [exact Hs|].
          rewrite Rmult_assoc, Rinv_l by lra. lra.
        + apply Rlt_le, Rinv_0_lt_compat. exact Hs. }
    assert (E : (_rms_norm (Leaf (map2 t_div e (map2 g y0 y1)))
                 <? of_Z 1)%sc = false).
    { destruct (_ <? _)%sc eqn:E; [|reflexivity].
      apply exact_lt_iff in E. rewrite exact_of_Z in E. lra. }
    rewrite E. destruct (dtmin self) as [d|]; [|reflexivity].
    destruct Hfloor as [Hd| ->]; [discriminate | reflexivity].
Qed.

Lemma tolerance_decides_acceptance_witness :
  exists keep_step next_t0 next_t1 state' result,
    adapt_step_size default_controller 0%R 1%R [1%R] [1%R] tt
      (Some [(1 / 10000)%R]) 4 (false, false)
    = OK (keep_step, next_t0, next_t1, false, state', result) /\
    keep_step = true.
Proof.
  pose proof (adapt_step_size_no_grids default_controller 0%R 1%R
                [1%R] [1%R] tt [(1 / 10000)%R] 4 false false
                eq_refl eq_refl) as Hcall.
  cbv zeta in Hcall.
  pose proof (tolerance_decides_acceptance one_lane unit default_controller
                eq_refl (fun v => eq_refl)
                _ _ _ _ _ _ _ _ _ _ _ _ _ _ _ Hcall) as [Hkeep _].
  do 5 eexists. split; [exact Hcall|].
  apply Hkeep. constructor; [|constructor].
  cbn [fst snd atol rtol default_controller].
  change (lit 1 (-6)) with (1 / 1000000)%R.
  change (lit 1 (-3)) with (1 / 1000)%R.
  rewrite Rmax_left by lra. rewrite Rabs_pos_eq by lra. lra.
Defined.



(** ** Binding a controller to a solve *)

Section ExactWrap.

Open Scope R_scope.

Lemma map_times_one (s : list R) : map (fun t => (t * 1)%sc) s = s.
Proof.
  induction s as [|t s IH]; cbn [map]; [reflexivity|].
  rewrite IH. f_equal. cbn. lra.
Qed.

Lemma map_times_minus_one_twice (s : list R) :
  map (fun t => (t * -1)%sc) (map (fun t => (t * -1)%sc) s) = s.
Proof.
  induction s as [|t s IH]; cbn [map]; [reflexivity|].
  rewrite IH. f_equal. cbn. lra.
Qed.

Lemma flipped_descending (s : list R) :
  StronglySorted Rge s -> StronglySorted Rle (map (fun t => (t * -1)%sc) s).
Proof.
  induction 1 as [|t s Hs IH Ht]; cbn [map]; constructor.
  - exact IH.
  - rewrite Forall_forall in *. intros x Hx.
    apply in_map_iff in Hx. destruct Hx as (y & <- & Hy).
    specialize (Ht y Hy). cbn. lra.
Qed.

Lemma flipped_ascending (s : list R) :
  StronglySorted Rle s -> StronglySorted Rge (map (fun t => (t * -1)%sc) s).
Proof.
  induction 1 as [|t s Hs IH Ht]; cbn [map]; constructor.
  - exact IH.
  - rewrite Forall_forall in *. intros x Hx.
    apply in_map_iff in Hx. destruct Hx as (y & <- & Hy).
    specialize (Ht y Hy). cbn. lra.
Qed.

End ExactWrap.

(** X16. [wrap] changes nothing but the two grids, [unravel_y] and
    [direction].  In exact arithmetic, binding in the forward direction
    leaves both grids as they are, and binding twice in the backward
    direction gives them back. *)
Theorem wrap_keeps_configuration :
  (forall (T : Type) (S : Scalar T) (self : IController T)
      (unravel : list T -> PyTree T) (d : T),
      let bound := wrap self unravel d in
      rtol bound = rtol self /\ atol bound = atol self /\
      safety bound = safety self /\ ifactor bound = ifactor self /\
      dfactor bound = dfactor self /\ norm bound = norm self /\
      dtmin bound = dtmin self /\ dtmax bound = dtmax self /\
      force_dtmin bound = force_dtmin self /\
      unvmap_dt bound = unvmap_dt self /\
      unravel_y bound = unravel /\ direction bound = d /\
      option_map (@List.length T) (step_ts bound)
      = option_map (@List.length T) (step_ts self) /\
      option_map (@List.length T) (jump_ts bound)
      = option_map (@List.length T) (jump_ts self)) /\
  (forall (self : IController R) (unravel unravel' : list R -> PyTree R),
      step_ts (wrap self unravel 1%R) = step_ts self /\
      jump_ts (wrap self unravel 1%R) = jump_ts self /\
      step_ts (wrap (wrap self unravel (-1)%R) unravel' (-1)%R)
      = step_ts self /\
      jump_ts (wrap (wrap self unravel (-1)%R) unravel' (-1)%R)
      = jump_ts self).
Proof.
  split.
  - intros T S self unravel d. cbv zeta. cbn [wrap rtol atol safety ifactor
      dfactor norm dtmin dtmax force_dtmin unvmap_dt unravel_y direction
      step_ts jump_ts].
    repeat (split; [reflexivity|]).
    split.
    + destruct (step_ts self) as [s|]; cbn [option_map]; [|reflexivity].
      rewrite length_map. reflexivity.
    + destruct (jump_ts self) as [s|]; cbn [option_map]; [|reflexivity].
      rewrite length_map. reflexivity.
  - intros self unravel unravel'. cbn [wrap step_ts jump_ts].
    repeat split.
    + destruct (step_ts self) as [s|]; cbn [option_map]; [|reflexivity].
      rewrite map_times_one. reflexivity.
    + destruct (jump_ts self) as [s|]; cbn [option_map]; [|reflexivity].
      rewrite map_times_one. reflexivity.
    + destruct (step_ts self) as [s|]; cbn [option_map]; [|reflexivity].
      rewrite map_times_minus_one_twice. reflexivity.
    + destruct (jump_ts self) as [s|]; cbn [option_map]; [|reflexivity].
      rewrite map_times_minus_one_twice. reflexivity.
Qed.

(** X17. Binding in the backward direction reverses the order of the
    mandatory times: a descending grid becomes ascending, as the ordered
    search of the clippers needs it, and an ascending grid becomes
    descending (exact arithmetic). *)
Theorem wrap_backward_reverses_order :
  forall (self : IController R) (unravel : list R -> PyTree R) (s : list R),
    step_ts self = Some s ->
    exists s',
      step_ts (wrap self unravel (-1)%R) = Some s' /\
      List.length s' = List.length s /\
      (StronglySorted Rge s -> StronglySorted Rle s') /\
      (StronglySorted Rle s -> StronglySorted Rge s').
Proof.
  intros self unravel s Es.
  exists (map (fun t => (t * -1)%R) s).
  cbn [wrap step_ts]. rewrite Es. cbn [option_map].
  split; [reflexivity|]. split; [apply length_map|]. split.
  - apply flipped_descending.
  - apply flipped_ascending.
Qed.

Lemma wrap_backward_reverses_order_witness :
  exists s',
    step_ts (wrap descending_grid_exact Leaf (-1)%R) = Some s' /\
    StronglySorted Rle s'.
Proof.
  destruct (wrap_backward_reverses_order descending_grid_exact Leaf
              [5; 2; 1]%R eq_refl) as (s' & Es' & _ & Hup & _).
  exists s'. split; [exact Es'|].
  apply Hup. repeat constructor; lra.
Defined.

(** ** The initial step at a stationary start *)

Section StationaryStart.

Context {T : Type} `{Scalar T} `{Power T} {A : Type}.


End StationaryStart.



(** ** Error estimates that are not numbers

    In binary64 an error estimate can hold a NaN (an overflow in the solver,
    a division of zero by zero).  The arithmetic of the norm and of the
    scaling carries it through to the scaled error, and the comparison of
    line 219 then fails. *)

Section NotANumber.

Lemma is_nan_spec (x : float) :
  F64.is_nan x = true <-> Prim2SF x = SpecFloat.S754_nan.
Proof.
  unfold F64.is_nan. rewrite FloatAxioms.eqb_spec. unfold SpecFloat.SFeqb.
  split.
  - intros Hn. destruct (Prim2SF x) as [s|s| |s m e] eqn:E; try reflexivity;
      rewrite SFcompare_refl in Hn by discriminate; discriminate.
  - intros ->. reflexivity.
Qed.

Lemma add_nan (x y : float) :
  F64.is_nan x = true \/ F64.is_nan y = true ->
  F64.is_nan (x + y)%float = true.
Proof.
  rewrite !is_nan_spec, FloatAxioms.add_spec. unfold SF64add.
  intros [-> | ->]; [reflexivity|].
  destruct (Prim2SF x) as [s|s| |s m e]; reflexivity.
Qed.

Lemma mul_nan (x : float) :
  F64.is_nan x = true -> F64.is_nan (x * x)%float = true.
Proof.
  rewrite !is_nan_spec, FloatAxioms.mul_spec. unfold SF64mul.
  intros ->. reflexivity.
Qed.

Lemma div_nan (x y : float) :
  F64.is_nan x = true -> F64.is_nan (x / y)%float = true.
Proof.
  rewrite !is_nan_spec, FloatAxioms.div_spec. unfold SF64div.
  intros ->. reflexivity.
Qed.

Lemma sqrt_nan (x : float) :
  F64.is_nan x = true -> F64.is_nan (PrimFloat.sqrt x) = true.
Proof.
  rewrite !is_nan_spec, FloatAxioms.sqrt_spec. unfold SF64sqrt.
  intros ->. reflexivity.
Qed.

Lemma nan_compares_false (x y : float) :
  F64.is_nan x = true ->
  PrimFloat.ltb x y = false /\ PrimFloat.eqb x y = false.
Proof.
  rewrite is_nan_spec, FloatAxioms.ltb_spec, FloatAxioms.eqb_spec.
  intros ->. split; reflexivity.
Qed.

(** A sum that meets a NaN, in the accumulator or in a term, is a NaN. *)
Lemma sum_of_squares_nan (l : list float) (a : float) :
  F64.is_nan a = true \/ (exists v, In v l /\ F64.is_nan v = true) ->
  F64.is_nan (fold_left t_add (map square l) a) = true.
Proof.
  revert a. induction l as [|w l IH]; intros a Hn.
  - destruct Hn as [Ha | [v [[] _]]]. exact Ha.
  - cbn [map fold_left]. apply IH.
    destruct Hn as [Ha | [v [[<- | Hin] Hv]]].
    + left. apply add_nan. left. exact Ha.
    + left. apply add_nan. right. apply mul_nan, Hv.
    + right. exists v. split; assumption.
Qed.

Lemma rms_norm_nan (x : PyTree float) :
  (exists v, In v (ravel_pytree x) /\ F64.is_nan v = true) ->
  F64.is_nan (_rms_norm x) = true.
Proof.
  intros Hn. unfold _rms_norm.
  destruct (ravel_pytree x) as [|w l] eqn:El.
  - destruct Hn as [v [[] _]].
  - cbn [List.length Nat.eqb].
    assert (Hmean : F64.is_nan (jnp_mean (map square (w :: l))) = true).
    { unfold jnp_mean. apply div_nan. unfold jnp_sum.
      apply sum_of_squares_nan. right. exact Hn. }
    destruct (nan_compares_false _ zero Hmean) as [_ Heq].
    change (t_eq ?a ?b) with (PrimFloat.eqb a b).
    rewrite Heq. unfold jnp_where. apply sqrt_nan, Hmean.
Qed.

Lemma map2_nth_error {X Y Z : Type} (f : X -> Y -> Z) (xs : list X)
    (ys : list Y) (i : nat) (x : X) (y : Y) :
  nth_error xs i = Some x -> nth_error ys i = Some y ->
  nth_error (map2 f xs ys) i = Some (f x y).
Proof.
  revert ys i. induction xs as [|a xs IH]; intros ys i Hx Hy.
  - destruct i; discriminate.
  - destruct ys as [|b ys]; [destruct i; discriminate|].
    destruct i as [|i]; cbn in *.
    + congruence.
    + apply IH; assumption.
Qed.

Lemma nth_error_below {X : Type} (l : list X) (i : nat) :
  (i < List.length l)%nat -> exists x, nth_error l i = Some x.
Proof.
  intros Hi. destruct (nth_error l i) as [x|] eqn:E.
  - exists x. reflexivity.
  - apply nth_error_None in E. lia.
Qed.

End NotANumber.

(** X19. In binary64 the RMS norm of a state that holds a NaN is a NaN.
    Under that norm, [adapt_step_size] rejects a step whose error estimate
    has a NaN in one of its entries, for every tolerance, in scalar and in
    lockstep-batched mode: its scaled error is a NaN, which is not below 1.
    Only the floor on the step size ([dtmin] set and [at_dtmin] raised)
    keeps such a step. *)
Theorem nan_error_is_rejected :
  (forall x : PyTree float,
      (exists v, In v (ravel_pytree x) /\ F64.is_nan v = true) ->
      F64.is_nan (_rms_norm x) = true) /\
  (forall (P : Power float) (B : Batch float) (A : Type)
      (self : IController float) (t0 t1 : float)
      (y0 y1_candidate : list float) (args : A) (y_error : list float)
      (solver_order : Z) (made_jump at_dtmin : bool) (keep_step : bool)
      (next_t0 next_t1 : float) (made_jump' : bool)
      (state' : _ControllerState) (result : RESULTS) (i : nat) (v : float),
      adapt_step_size self t0 t1 y0 y1_candidate args (Some y_error)
        solver_order (made_jump, at_dtmin)
      = OK (keep_step, next_t0, next_t1, made_jump', state', result) ->
      norm self = _rms_norm ->
      (forall w, ravel_pytree (unravel_y self w) = w) ->
      nth_error y_error i = Some v -> F64.is_nan v = true ->
      (i < List.length y0)%nat -> (i < List.length y1_candidate)%nat ->
      F64.is_nan (adapt_scaled_error self y_error y0 y1_candidate) = true /\
      (dtmin self = None \/ at_dtmin = false -> keep_step = false) /\
      (dtmin self <> None -> at_dtmin = true ->
       keep_step
       = if unvmap_dt self then jnp_all other_keep_step else true)).
Proof.
  split; [exact rms_norm_nan|].
  intros P B A self t0 t1 y0 y1_candidate args y_error k mj ad keep nt0 nt1
    mj' [nmj ad'] r i v Hcall Hnorm Hu Hv Hnan Hi0 Hi1.
  assert (Hs : F64.is_nan (adapt_scaled_error self y_error y0 y1_candidate)
               = true).
  { unfold adapt_scaled_error, _scale_error_estimate. rewrite Hnorm.
    apply rms_norm_nan. rewrite Hu.
    destruct (nth_error_below y0 i Hi0) as [a Ha].
    destruct (nth_error_below y1_candidate i Hi1) as [b Hb].
    exists (v / (atol self + jnp_maximum a b * rtol self)%sc)%float.
    split.
    - apply (nth_error_In _ i).
      erewrite map2_nth_error; [reflexivity | exact Hv |].
      apply (map2_nth_error
               (fun a b : float =>
                  (atol self + jnp_maximum a b * rtol self)%sc)
               y0 y1_candidate i a b Ha Hb).
    - apply div_nan, Hnan. }
  apply adapt_step_size_returns in Hcall. destruct Hcall as (-> & _).
  destruct (nan_compares_false _ (of_Z 1) Hs) as [Hlt _].
  change (PrimFloat.ltb ?a ?b) with (@t_lt float float_scalar a b) in Hlt.
  split; [exact Hs|]. split.
  - intros Hfloor. apply adapt_keep_step_rejects. rewrite Hlt.
    destruct (dtmin self) as [d|]; [|reflexivity].
    destruct Hfloor as [Hd| ->]; [discriminate | reflexivity].
  - intros Hd ->. apply adapt_keep_step_accepts.
    destruct (dtmin self) as [d|]; [apply orb_true_r | congruence].
Qed.

Lemma nan_error_is_rejected_witness :
  exists keep_step next_t0 next_t1 state' result,
    @adapt_step_size float float_scalar float_adjacent pow_order_one
      one_lane unit default_controller 0%float 1%float [1%float] [2%float]
      tt (Some [PrimFloat.nan]) 1 (false, false)
    = OK (keep_step, next_t0, next_t1, false, state', result) /\
    keep_step = false.
Proof.
  pose proof (@adapt_step_size_no_grids float float_scalar float_adjacent
                pow_order_one one_lane unit default_controller
                0%float 1%float [1%float] [2%float] tt [PrimFloat.nan] 1
                false false eq_refl eq_refl) as Hcall.
  cbv zeta in Hcall.
  pose proof (proj2 nan_error_is_rejected pow_order_one one_lane unit
                default_controller _ _ _ _ _ _ _ _ _ _ _ _ _ _ _
                0%nat PrimFloat.nan Hcall eq_refl (fun w => eq_refl)
                eq_refl eq_refl ltac:(cbn; lia) ltac:(cbn; lia))
    as (_ & Hrej & _).
  do 5 eexists. split; [exact Hcall|].
  apply Hrej. left. reflexivity.
Defined.
